(** * Line reconstruction of [redact_extract.py]

    A shallow embedding of the two core stages of the tool, word clustering
    ([group_words_into_lines]) and line synthesis ([build_line_text]), of
    the per-page driver ([extract_lines_with_positions]), of the two
    renderers ([make_side_by_side], [make_overlay_white]) and of [main],
    followed by the properties of the specification that concern them and
    by further properties read off the code.

    Numbers.  The program computes with Python floats.  The code is
    embedded twice.  In the first embedding a float is an exact rational
    [Q]: comparisons, [abs], [max], [round] (half to even) and the four
    operations are the exact ones, so IEEE rounding error, NaN and the
    infinities are outside of it; it carries the properties about the
    structure of the result (which words, in which order, how many lines,
    which element of a sorted list).  In the second embedding, module
    [B64], a float is a binary64 number with the operations of the
    processor; it carries the properties that depend on what a comparison
    or a rounding returns.  Python integers are [Z].

    Errors.  In the first embedding the only exception is the [IndexError]
    of an out-of-range subscript; a function that may raise it returns
    [option], [None] standing for the exception.  In [B64] a function
    returns [res], a value or the exception raised: [IndexError], the
    [OverflowError] of [round] on an infinity and of a string longer than
    [sys.maxsize], the [ValueError] of [round] on a NaN. *)

From Stdlib Require Import List String Ascii Bool Arith ZArith Lia.
From Stdlib Require Import QArith Qabs Qround Qminmax Lqa.
From Stdlib Require Import Floats.
From Stdlib Require Import Permutation Sorted.
Import ListNotations.

Local Open Scope Q_scope.

(** ** Python primitives *)

(** [a < b] on floats. *)
Definition Qltb (a b : Q) : bool := negb (Qle_bool b a).

(** [max(a, b)]: the first argument unless the second is strictly greater. *)
Definition py_max (a b : Q) : Q := if Qltb a b then b else a.

(** [int(round(q))]: rounding to the nearest integer, ties to the even one. *)
Definition py_round (q : Q) : Z :=
  let f := Qfloor q in
  match Qcompare (q - inject_Z f) (1 # 2) with
  | Lt => f
  | Gt => (f + 1)%Z
  | Eq => if Z.even f then f else (f + 1)%Z
  end.

(** [" " * n]: empty when [n] is not positive. *)
Fixpoint spaces_nat (n : nat) : string :=
  match n with
  | O => EmptyString
  | S n' => String " " (spaces_nat n')
  end.

Definition spaces (n : Z) : string := spaces_nat (Z.to_nat n).

(** [sorted(l, key=key)]: Python's sort is stable and compares keys with [<]
    only.  A stable sort is determined by its input, so the stable insertion
    sort below computes the same list. *)
Section PySorted.
Context {A K : Type} (lt : K -> K -> bool) (key : A -> K).

Fixpoint insert_by (x : A) (l : list A) : list A :=
  match l with
  | [] => [x]
  | y :: l' => if lt (key y) (key x) then y :: insert_by x l' else x :: l
  end.

Definition sorted (l : list A) : list A := fold_right insert_by [] l.
End PySorted.

(** [<] on the tuples [(top, x0)]: the first components decide unless they
    are equal. *)
Definition tuple_ltb (a b : Q * Q) : bool :=
  if Qeq_bool (fst a) (fst b) then Qltb (snd a) (snd b) else Qltb (fst a) (fst b).

(** [str.isspace] on the characters of the model (ASCII): tab, line feed,
    vertical tab, form feed, carriage return, the separators 28 to 31 and the
    space. *)
Definition is_space (c : ascii) : bool :=
  let n := nat_of_ascii c in
  ((9 <=? n) && (n <=? 13) || (28 <=? n) && (n <=? 32))%nat.

Fixpoint lstrip (s : string) : string :=
  match s with
  | EmptyString => EmptyString
  | String c s' => if is_space c then lstrip s' else s
  end.

Fixpoint rstrip (s : string) : string :=
  match s with
  | EmptyString => EmptyString
  | String c s' =>
      match rstrip s' with
      | EmptyString => if is_space c then EmptyString else String c EmptyString
      | t => String c t
      end
  end.

(** [s.strip()] *)
Definition strip (s : string) : string := rstrip (lstrip s).

(** Truth value of a string: non-empty. *)
Definition truthy (s : string) : bool :=
  match s with EmptyString => false | _ => true end.

(** [s[i]] on a list; [None] is [IndexError]. *)
Definition subscript {A : Type} (l : list A) (i : nat) : option A := nth_error l i.

Definition bind {A B : Type} (m : option A) (k : A -> option B) : option B :=
  match m with
  | Some a => k a
  | None => None
  end.

Notation "x <- m ;; k" := (bind m (fun x => k))
  (at level 61, m at next level, right associativity).

(** ** Word boxes *)

(** The value stored under ["size"]: a number, or something [float] rejects. *)
Inductive attr : Type :=
| Num (q : Q)
| NotNum.

(** A word dictionary as [page.extract_words] returns it.  A key that may be
    missing is an [option]. *)
Record WordBox : Type := mkWord {
  text : option string;
  x0 : option Q;
  x1 : option Q;
  top : option Q;
  bottom : option Q;
  size : option attr
}.

(** [w.get("text", '')] *)
Definition get_text (w : WordBox) : string :=
  match text w with Some s => s | None => EmptyString end.

(** [float(w.get("x0", 0.0))] *)
Definition get_x0 (w : WordBox) : Q :=
  match x0 w with Some v => v | None => 0 end.

(** [float(w.get("x1", x0))] with [x0] as above *)
Definition get_x1 (w : WordBox) : Q :=
  match x1 w with Some v => v | None => get_x0 w end.

(** [float(w.get("top", 0.0))] *)
Definition get_top (w : WordBox) : Q :=
  match top w with Some v => v | None => 0 end.

(** [float(w.get("bottom", top + 10.0))] *)
Definition get_bottom (w : WordBox) : Q :=
  match bottom w with Some v => v | None => get_top w + 10 end.

(** ** Word clustering *)

(** The loop state: [lines], [current], [current_top]. *)
Definition cluster_state : Type := (list (list WordBox) * list WordBox * option Q)%type.

Definition cluster_step (line_tol : Q) (st : cluster_state) (w : WordBox) : cluster_state :=
  let '(lines, current, current_top) := st in
  let top := get_top w in
  match current_top with
  | None => (lines, [w], Some top)
  | Some ct =>
      if Qle_bool (Qabs (top - ct)) line_tol then
        let current := current ++ [w] in
        let n := inject_Z (Z.of_nat (List.length current)) in
        (lines, current, Some ((ct * (n - 1) + top) / n))
      else
        (lines ++ [current], [w], Some top)
  end.

Definition group_words_into_lines (words : list WordBox) (line_tol : Q)
  : list (list WordBox) :=
  match words with
  | [] => []
  | _ =>
      let words := sorted tuple_ltb (fun w => (get_top w, get_x0 w)) words in
      let '(lines, current, _) :=
        fold_left (cluster_step line_tol) words ([], [], None) in
      match current with
      | [] => lines
      | _ => lines ++ [current]
      end
  end.

(** ** Line synthesis *)

(** The sizes collected by the first loop: a missing or [None] size is
    skipped, and so is one on which [float] raises. *)
Fixpoint collect_sizes (ws : list WordBox) : list Q :=
  match ws with
  | [] => []
  | w :: ws' =>
      match size w with
      | Some (Num q) => q :: collect_sizes ws'
      | _ => collect_sizes ws'
      end
  end.

(** [max(6.0, bottom - top)] *)
Definition bbox_height (w : WordBox) : Q := py_max 6 (get_bottom w - get_top w).

(** The loop state of the text assembly: [parts], [prev_x1], [last_x1]. *)
Definition text_state : Type := (list string * Q * Q)%type.

(** The string appended to [parts] before the text of a word, the body of
    the [if gap > 0] of the loop. *)
Definition separator (space_unit_pts : Q) (min_spaces : Z) (gap : Q) : string :=
  if Qltb 0 gap then
    let n_spaces := py_round (gap / py_max (1 # 2) space_unit_pts) in
    let n_spaces := Z.max min_spaces n_spaces in
    spaces n_spaces
  else if Qltb (- space_unit_pts * (3 # 10)) gap then " "%string
  else EmptyString.

Definition text_step (space_unit_pts : Q) (min_spaces : Z)
  (st : text_state) (w : WordBox) : text_state :=
  let '(parts, prev_x1, last_x1) := st in
  let text := get_text w in
  let x0 := get_x0 w in
  let x1 := get_x1 w in
  let gap := x0 - prev_x1 in
  (parts ++ [separator space_unit_pts min_spaces gap; text],
   py_max prev_x1 x1, py_max last_x1 x1).

(** The tuple [(text, x0, x1, top, font_size_est)]. *)
Record LineText : Type := mkLine {
  line_text : string;
  line_x0 : Q;
  line_x1 : Q;
  line_top : Q;
  line_font_size : Q
}.

Definition build_line_text (line_words : list WordBox)
  (space_unit_pts : Q) (min_spaces : Z) : option LineText :=
  let line_words := sorted Qltb get_x0 line_words in
  let sizes := collect_sizes line_words in
  font_size <-
    match sizes with
    | _ :: _ =>
        let sizes_sorted := sorted Qltb (fun q => q) sizes in
        subscript sizes_sorted (List.length sizes_sorted / 2)%nat
    | [] =>
        let hs := sorted Qltb (fun q => q) (map bbox_height line_words) in
        match hs with
        | _ :: _ => subscript hs (List.length hs / 2)%nat
        | [] => Some 10
        end
    end ;;
  top_med <-
    subscript (sorted Qltb (fun q => q) (map get_top line_words))
              (List.length line_words / 2)%nat ;;
  first <- subscript line_words 0 ;;
  let first_x0 := get_x0 first in
  let last_x1 := get_x1 first in
  let prev_x1 := get_x1 first in
  let parts := [get_text first] in
  let '(parts, _, last_x1) :=
    fold_left (text_step space_unit_pts min_spaces) (tl line_words)
              (parts, prev_x1, last_x1) in
  Some (mkLine (String.concat EmptyString parts) first_x0 last_x1 top_med font_size).

(** ** The per-page driver *)

(** The body of the loop over [lines] in [extract_lines_with_positions]: the
    tuples [(line_text, x0, top, font_size)] of the lines whose stripped text
    is not empty. *)
Fixpoint page_out (lines : list (list WordBox)) (space_unit_pts : Q) (min_spaces : Z)
  : option (list (string * Q * Q * Q)) :=
  match lines with
  | [] => Some []
  | lw :: rest =>
      r <- build_line_text lw space_unit_pts min_spaces ;;
      out <- page_out rest space_unit_pts min_spaces ;;
      Some (if truthy (strip (line_text r))
            then (line_text r, line_x0 r, line_top r, line_font_size r) :: out
            else out)
  end.

(** One page: [words] is what [page.extract_words] returned for it. *)
Definition page_lines (words : list WordBox)
  (line_tol space_unit_pts : Q) (min_spaces : Z) : option (list (string * Q * Q * Q)) :=
  page_out (group_words_into_lines words line_tol) space_unit_pts min_spaces.

(** The document is the list of the word lists of its pages. *)
Fixpoint extract_lines_with_positions (pages : list (list WordBox))
  (line_tol space_unit_pts : Q) (min_spaces : Z)
  : option (list (list (string * Q * Q * Q))) :=
  match pages with
  | [] => Some []
  | words :: rest =>
      out <- page_lines words line_tol space_unit_pts min_spaces ;;
      pages_lines <- extract_lines_with_positions rest line_tol space_unit_pts min_spaces ;;
      Some (out :: pages_lines)
  end.

(** ** The renderers *)

(** What PyMuPDF is asked to do on a page: the calls of [show_pdf_page] and
    of [insert_text], with their arguments.  A rectangle is
    [(x0, y0, x1, y1)], a colour is [(r, g, b)]. *)
Inductive draw_op : Type :=
| show_pdf_page (rect : Q * Q * Q * Q) (pno : nat)
| insert_text (point_x point_y : Q) (txt : string) (fontsize : Q)
    (fontname : string) (color : Q * Q * Q) (overlay : bool).

(** A page of the output document: the size it was created with, or the
    size of the page it is when the page was there, and the calls made on
    it, in order. *)
Record out_page : Type := mkPage {
  page_width : Q;
  page_height : Q;
  page_ops : list draw_op
}.

(** [lines_per_page[i] if i < len(lines_per_page) else []] *)
Definition lines_of_page (lines_per_page : list (list (string * Q * Q * Q))) (i : nat)
  : list (string * Q * Q * Q) :=
  if (i <? List.length lines_per_page)%nat then nth i lines_per_page [] else [].

(** The loop over the pages of [src] in [make_side_by_side], from the page
    of index [i] on; a page of [src] is the [(width, height)] of its
    rectangle. *)
Fixpoint side_by_side_pages (i : nat) (src : list (Q * Q))
  (lines_per_page : list (list (string * Q * Q * Q))) : list out_page :=
  match src with
  | [] => []
  | (w, h) :: src' =>
      let x_off := w in
      let page_lines := lines_of_page lines_per_page i in
      mkPage (2 * w) h
        (show_pdf_page (0, 0, w, h) i
         :: map (fun '(txt, x0, top, font_size) =>
                   let y := top + font_size * (85 # 100) in
                   insert_text (x_off + x0) y txt font_size "helv" (0, 0, 0) true)
                page_lines)
      :: side_by_side_pages (S i) src' lines_per_page
  end.

(** The document [make_side_by_side] saves.  The input file is read twice:
    [src] is what PyMuPDF sees of it, the rectangles of its pages, and [pdf]
    what pdfplumber sees, the words of its pages. *)
Definition make_side_by_side (src : list (Q * Q)) (pdf : list (list WordBox))
  (line_tol space_unit_pts : Q) (min_spaces : Z) : option (list out_page) :=
  lines_per_page <- extract_lines_with_positions pdf line_tol space_unit_pts min_spaces ;;
  Some (side_by_side_pages 0 src lines_per_page).

(** The loop over the pages of [doc] in [make_overlay_white]. *)
Fixpoint overlay_white_pages (i : nat) (doc : list (Q * Q))
  (lines_per_page : list (list (string * Q * Q * Q))) : list out_page :=
  match doc with
  | [] => []
  | (w, h) :: doc' =>
      let page_lines := lines_of_page lines_per_page i in
      mkPage w h
        (map (fun '(txt, x0, top, font_size) =>
                let y := top + font_size * (85 # 100) in
                insert_text x0 y txt font_size "helv" (1, 1, 1) true)
             page_lines)
      :: overlay_white_pages (S i) doc' lines_per_page
  end.

(** The document [make_overlay_white] saves: the pages of the input with
    the calls made on them. *)
Definition make_overlay_white (doc : list (Q * Q)) (pdf : list (list WordBox))
  (line_tol space_unit_pts : Q) (min_spaces : Z) : option (list out_page) :=
  lines_per_page <- extract_lines_with_positions pdf line_tol space_unit_pts min_spaces ;;
  Some (overlay_white_pages 0 doc lines_per_page).

(** ** The command line *)

(** The two values [--mode] accepts. *)
Inductive Mode : Type :=
| side_by_side
| overlay_white.

(** The parsed arguments. *)
Record Args : Type := mkArgs {
  arg_input_pdf : string;
  arg_output : option string;
  arg_mode : Mode;
  arg_line_tol : Q;
  arg_space_unit : Q;
  arg_min_spaces : Z
}.

(** What [main] does after parsing: it raises [FileNotFoundError], or calls
    one of the two renderers on an input path and an output path. *)
Inductive Outcome : Type :=
| FileNotFoundError (path : string)
| call_make_side_by_side (input_pdf output_pdf : string)
    (line_tol space_unit_pts : Q) (min_spaces : Z)
| call_make_overlay_white (input_pdf output_pdf : string)
    (line_tol space_unit_pts : Q) (min_spaces : Z).

Section Main.
(** [os.path.exists] and [os.path.splitext] *)
Variable path_exists : string -> bool.
Variable splitext : string -> string * string.

Definition main (args : Args) : Outcome :=
  if negb (path_exists (arg_input_pdf args)) then
    FileNotFoundError (arg_input_pdf args)
  else
    let output :=
      match arg_output args with
      | None =>
          let '(base, _) := splitext (arg_input_pdf args) in
          let suffix :=
            match arg_mode args with
            | side_by_side => "_side_by_side.pdf"%string
            | overlay_white => "_overlay_white.pdf"%string
            end in
          (base ++ suffix)%string
      | Some o => o
      end in
    match arg_mode args with
    | side_by_side =>
        call_make_side_by_side (arg_input_pdf args) output
          (arg_line_tol args) (arg_space_unit args) (arg_min_spaces args)
    | overlay_white =>
        call_make_overlay_white (arg_input_pdf args) output
          (arg_line_tol args) (arg_space_unit args) (arg_min_spaces args)
    end.
End Main.

(** The output path of a call of a renderer. *)
Definition outcome_output (o : Outcome) : option string :=
  match o with
  | FileNotFoundError _ => None
  | call_make_side_by_side _ out _ _ _ => Some out
  | call_make_overlay_white _ out _ _ _ => Some out
  end.

(** ** The same code in binary64

    Where a property depends on how the arithmetic rounds, the code is read
    with the floats it runs on: [float] is binary64, its operations and
    comparisons are those of the processor.  Here the two exceptions of the
    text loop are kept as well: [round] raises [OverflowError] on an
    infinity and [ValueError] on a NaN, and [' ' * n] raises
    [OverflowError] when [n] exceeds [sys.maxsize] (taken as [2^63 - 1]);
    running out of memory on a long string is not modelled. *)
Module B64.
Local Set Warnings "-inexact-float".

Inductive exn : Type :=
| IndexError
| OverflowError
| ValueError.

Inductive res (A : Type) : Type :=
| Ok (a : A)
| Raise (e : exn).
Arguments Ok {A} a.
Arguments Raise {A} e.

Definition rbind {A B : Type} (m : res A) (k : A -> res B) : res B :=
  match m with
  | Ok a => k a
  | Raise e => Raise e
  end.

Notation "x <~ m ;; k" := (rbind m (fun x => k))
  (at level 61, m at next level, right associativity).

Definition rmap {A B : Type} (f : A -> B) (m : res A) : res B :=
  x <~ m ;; Ok (f x).

(** [max(a, b)] *)
Definition py_max (a b : float) : float := if (a <? b)%float then b else a.

(** The integer nearest to [m * 2^e], ties to the even one. *)
Definition round_half_even (m : positive) (e : Z) : Z :=
  if (0 <=? e)%Z then (Zpos m * 2 ^ e)%Z
  else
    let d := (2 ^ (- e))%Z in
    let q := (Zpos m / d)%Z in
    let r := (Zpos m mod d)%Z in
    match (2 * r ?= d)%Z with
    | Lt => q
    | Gt => (q + 1)%Z
    | Eq => if Z.even q then q else (q + 1)%Z
    end.

(** [int(round(x))] *)
Definition py_round (x : float) : res Z :=
  match Prim2SF x with
  | S754_zero _ => Ok 0%Z
  | S754_finite s m e =>
      Ok (if s then (- round_half_even m e)%Z else round_half_even m e)
  | S754_infinity _ => Raise OverflowError
  | S754_nan => Raise ValueError
  end.

(** [sys.maxsize] *)
Definition maxsize : Z := (2 ^ 63 - 1)%Z.

(** [" " * n] *)
Definition repeat_space (n : Z) : res string :=
  if (maxsize <? n)%Z then Raise OverflowError else Ok (spaces n).

(** The float of a length: exact, a length being far below [2^53]. *)
Definition of_len (n : nat) : float := PrimFloat.of_uint63 (Uint63.of_Z (Z.of_nat n)).

Definition subscript {A : Type} (l : list A) (i : nat) : res A :=
  match nth_error l i with
  | Some a => Ok a
  | None => Raise IndexError
  end.

(** [<] on the tuples [(top, x0)] *)
Definition tuple_ltb (a b : float * float) : bool :=
  if (fst a =? fst b)%float then (snd a <? snd b)%float else (fst a <? fst b)%float.

Inductive attr : Type :=
| Num (x : float)
| NotNum.

Record WordBox : Type := mkWord {
  text : option string;
  x0 : option float;
  x1 : option float;
  top : option float;
  bottom : option float;
  size : option attr
}.

Definition get_text (w : WordBox) : string :=
  match text w with Some s => s | None => EmptyString end.

Definition get_x0 (w : WordBox) : float :=
  match x0 w with Some v => v | None => 0%float end.

Definition get_x1 (w : WordBox) : float :=
  match x1 w with Some v => v | None => get_x0 w end.

Definition get_top (w : WordBox) : float :=
  match top w with Some v => v | None => 0%float end.

Definition get_bottom (w : WordBox) : float :=
  match bottom w with Some v => v | None => (get_top w + 10)%float end.

(** *** Word clustering *)

Definition cluster_state : Type :=
  (list (list WordBox) * list WordBox * option float)%type.

Definition cluster_step (line_tol : float) (st : cluster_state) (w : WordBox)
  : cluster_state :=
  let '(lines, current, current_top) := st in
  let top := get_top w in
  match current_top with
  | None => (lines, [w], Some top)
  | Some ct =>
      if (abs (top - ct) <=? line_tol)%float then
        let current := current ++ [w] in
        (lines, current,
         Some ((ct * of_len (List.length current - 1) + top)
               / of_len (List.length current))%float)
      else
        (lines ++ [current], [w], Some top)
  end.

Definition group_words_into_lines (words : list WordBox) (line_tol : float)
  : list (list WordBox) :=
  match words with
  | [] => []
  | _ =>
      let words := sorted tuple_ltb (fun w => (get_top w, get_x0 w)) words in
      let '(lines, current, _) :=
        fold_left (cluster_step line_tol) words ([], [], None) in
      match current with
      | [] => lines
      | _ => lines ++ [current]
      end
  end.

(** *** Line synthesis *)

Fixpoint collect_sizes (ws : list WordBox) : list float :=
  match ws with
  | [] => []
  | w :: ws' =>
      match size w with
      | Some (Num x) => x :: collect_sizes ws'
      | _ => collect_sizes ws'
      end
  end.

Definition bbox_height (w : WordBox) : float :=
  py_max 6 (get_bottom w - get_top w)%float.

Definition separator (space_unit_pts : float) (min_spaces : Z) (gap : float)
  : res string :=
  if (0 <? gap)%float then
    n_spaces <~ py_round (gap / py_max 0.5 space_unit_pts)%float ;;
    let n_spaces := Z.max min_spaces n_spaces in
    repeat_space n_spaces
  else
    Ok (if (- space_unit_pts * 0.3 <? gap)%float then " "%string else EmptyString).

Definition text_state : Type := (list string * float * float)%type.

Definition text_step (space_unit_pts : float) (min_spaces : Z)
  (st : text_state) (w : WordBox) : res text_state :=
  let '(parts, prev_x1, last_x1) := st in
  let text := get_text w in
  let x0 := get_x0 w in
  let x1 := get_x1 w in
  let gap := (x0 - prev_x1)%float in
  sep <~ separator space_unit_pts min_spaces gap ;;
  Ok (parts ++ [sep; text], py_max prev_x1 x1, py_max last_x1 x1).

(** A loop whose body may raise. *)
Fixpoint for_each {S X : Type} (body : S -> X -> res S) (l : list X) (st : S) : res S :=
  match l with
  | [] => Ok st
  | x :: l' => st' <~ body st x ;; for_each body l' st'
  end.

Record LineText : Type := mkLine {
  line_text : string;
  line_x0 : float;
  line_x1 : float;
  line_top : float;
  line_font_size : float
}.

Definition build_line_text (line_words : list WordBox)
  (space_unit_pts : float) (min_spaces : Z) : res LineText :=
  let line_words := sorted PrimFloat.ltb get_x0 line_words in
  let sizes := collect_sizes line_words in
  font_size <~
    match sizes with
    | _ :: _ =>
        let sizes_sorted := sorted PrimFloat.ltb (fun x => x) sizes in
        subscript sizes_sorted (List.length sizes_sorted / 2)%nat
    | [] =>
        let hs := sorted PrimFloat.ltb (fun x => x) (map bbox_height line_words) in
        match hs with
        | _ :: _ => subscript hs (List.length hs / 2)%nat
        | [] => Ok 10%float
        end
    end ;;
  top_med <~
    subscript (sorted PrimFloat.ltb (fun x => x) (map get_top line_words))
              (List.length line_words / 2)%nat ;;
  first <~ subscript line_words 0 ;;
  let first_x0 := get_x0 first in
  let last_x1 := get_x1 first in
  let prev_x1 := get_x1 first in
  let parts := [get_text first] in
  st <~ for_each (text_step space_unit_pts min_spaces) (tl line_words)
          (parts, prev_x1, last_x1) ;;
  let '(parts, _, last_x1) := st in
  Ok (mkLine (String.concat EmptyString parts) first_x0 last_x1 top_med font_size).

(** *** Auxiliary definitions of the proofs *)

(** The dictionary without keys. *)
Definition empty_word : WordBox := mkWord None None None None None None.

(** The reference top after a word of top [top] joined a cluster that had
    [k] words and reference top [ct]. *)
Definition next_top (ct : float) (k : nat) (top : float) : float :=
  ((ct * of_len (S k - 1) + top) / of_len (S k))%float.

(** The clusters the loop still produces when it stands before [ws] with the
    open cluster [current] and the reference top [ct]. *)
Fixpoint clusters_from (line_tol : float) (current : list WordBox) (ct : float)
  (ws : list WordBox) : list (list WordBox) :=
  match ws with
  | [] => [current]
  | w :: ws' =>
      if (abs (get_top w - ct) <=? line_tol)%float then
        clusters_from line_tol (current ++ [w])
          (next_top ct (List.length current) (get_top w)) ws'
      else
        current :: clusters_from line_tol [w] (get_top w) ws'
  end.

Definition close_clusters (st : cluster_state) : list (list WordBox) :=
  let '(lines, current, _) := st in
  match current with
  | [] => lines
  | _ => lines ++ [current]
  end.


(** The reference top the loop holds once the words [c] form the open
    cluster. *)
Fixpoint reference_from (ct : float) (k : nat) (ws : list WordBox) : float :=
  match ws with
  | [] => ct
  | w :: ws' => reference_from (next_top ct k (get_top w)) (S k) ws'
  end.

Definition reference_top (c : list WordBox) : float :=
  match c with
  | [] => 0%float
  | w :: c' => reference_from (get_top w) 1 c'
  end.

(** Every word of the cluster [c] but the first passed the test of the loop
    against the reference top of the words before it. *)
Definition joined_within (tol : float) (c : list WordBox) : Prop :=
  forall i, (1 <= i < List.length c)%nat ->
    (abs (get_top (nth i c empty_word) - reference_top (firstn i c)) <=? tol)%float
    = true.

(** The test of the loop fails between the tops of [a] and [b], whichever
    of the two is the reference. *)
Definition far_apart (tol : float) (a b : WordBox) : Prop :=
  (abs (get_top b - get_top a) <=? tol)%float = false
  /\ (abs (get_top a - get_top b) <=? tol)%float = false.

(** The text the loop appends after [parts] when it stands before [ws] with
    the right edge [prev_x1]. *)
Fixpoint text_from (su : float) (ms : Z) (prev_x1 : float) (ws : list WordBox)
  : res string :=
  match ws with
  | [] => Ok EmptyString
  | w :: ws' =>
      sep <~ separator su ms (get_x0 w - prev_x1)%float ;;
      rest <~ text_from su ms (py_max prev_x1 (get_x1 w)) ws' ;;
      Ok (sep ++ get_text w ++ rest)%string
  end.

(** *** The separator rule in the words of the specification *)

(** The running right edge before the word of index [i] (from 1 on):
    [max] over the right edges of the words before it, starting from the
    first word's. *)
Definition running_right_edge (ws : list WordBox) (i : nat) : float :=
  fold_left py_max (map get_x1 (firstn (i - 1) (tl ws))) (get_x1 (hd empty_word ws)).

(** The number of spaces before a word at distance [gap] from the running
    right edge. *)
Definition spec_spaces (spaceUnitPts : float) (minSpaces : Z) (gap : float) : res Z :=
  if (0 <? gap)%float then
    n <~ py_round (gap / py_max 0.5 spaceUnitPts)%float ;;
    Ok (Z.max minSpaces n)
  else if ((gap <=? 0) && (- spaceUnitPts * 0.3 <? gap))%float then Ok 1%Z
  else Ok 0%Z.

(** The spaces and the text of the word of index [i]. *)
Definition spec_part (spaceUnitPts : float) (minSpaces : Z) (ws : list WordBox)
  (i : nat) : res string :=
  let w := nth i ws empty_word in
  n <~ spec_spaces spaceUnitPts minSpaces
         (get_x0 w - running_right_edge ws i)%float ;;
  s <~ repeat_space n ;;
  Ok (s ++ get_text w)%string.

Fixpoint join_res (l : list (res string)) : res string :=
  match l with
  | [] => Ok EmptyString
  | m :: l' => a <~ m ;; b <~ join_res l' ;; Ok (a ++ b)%string
  end.

(** The text of a line whose words are [ws]: the first text, then for each
    later word its spaces and its text. *)
Definition spec_text (spaceUnitPts : float) (minSpaces : Z) (ws : list WordBox)
  : res string :=
  rest <~ join_res (map (spec_part spaceUnitPts minSpaces ws)
                        (seq 1 (List.length ws - 1))) ;;
  Ok (get_text (hd empty_word ws) ++ rest)%string.


(** *** Pages and lines of the examples *)

(** A word of top [t]. *)
Definition at_top (t : float) : WordBox :=
  mkWord (Some "w"%string) (Some 0%float) (Some 1%float) (Some t) None None.

(** Five words whose tops are one unit in the last place apart, around 1. *)
Definition ulp_page : list WordBox :=
  map at_top [0x1.fffffffffffffp-1; 0x1.0000000000001p+0; 0x1.0000000000002p+0;
              0x1.0000000000003p+0; 0x1.0000000000004p+0]%float.

(** Two words on one line, from 0 to 0.1 and from 4.6 to 5. *)
Definition word_a : WordBox :=
  mkWord (Some "A"%string) (Some 0%float) (Some 0.1%float) (Some 50%float) None None.
Definition word_b : WordBox :=
  mkWord (Some "B"%string) (Some 4.6%float) (Some 5%float) (Some 50%float) None None.

End B64.

(** ** Scenario 1 of the specification *)

Definition hello : WordBox :=
  mkWord (Some "Hello"%string) (Some 100) (Some 140) (Some 50) None None.
Definition world : WordBox :=
  mkWord (Some "World"%string) (Some 160) (Some 200) (Some 50) None None.

(** Scenario 2: the second word three points lower. *)
Definition world_below : WordBox :=
  mkWord (Some "World"%string) (Some 160) (Some 200) (Some 53) None None.

(** ** Auxiliary definitions of the proofs *)

(** [a] may stand before [b] in a list sorted by [key]: the key of [b] is not
    below that of [a]. *)
Definition key_le {A K : Type} (lt : K -> K -> bool) (key : A -> K) (a b : A) : Prop :=
  lt (key b) (key a) = false.

(** The reference top after a word of top [a] joined a cluster that had [k]
    words and reference top [m]. *)
Definition mean_step (m : Q) (k : nat) (a : Q) : Q :=
  let n := inject_Z (Z.of_nat (S k)) in (m * (n - 1) + a) / n.

(** The clusters the loop still produces when it stands before [ws] with the
    open cluster [current] and the reference top [ct]. *)
Fixpoint clusters_from (line_tol : Q) (current : list WordBox) (ct : Q)
  (ws : list WordBox) : list (list WordBox) :=
  match ws with
  | [] => [current]
  | w :: ws' =>
      if Qle_bool (Qabs (get_top w - ct)) line_tol then
        clusters_from line_tol (current ++ [w])
          (mean_step ct (List.length current) (get_top w)) ws'
      else
        current :: clusters_from line_tol [w] (get_top w) ws'
  end.

Definition close_clusters (st : cluster_state) : list (list WordBox) :=
  let '(lines, current, _) := st in
  match current with
  | [] => lines
  | _ => lines ++ [current]
  end.

(** The number of clusters closed while the loop runs over the tops [l],
    from a cluster of [k] words with reference top [m]. *)
Fixpoint breaks (tol m : Q) (k : nat) (l : list Q) : nat :=
  match l with
  | [] => O
  | a :: l' =>
      if Qle_bool (Qabs (a - m)) tol then breaks tol (mean_step m k a) (S k) l'
      else S (breaks tol a 1 l')
  end.

(** The element at index [len // 2] of a sequence. *)
Definition middle (l : list Q) : Q := nth (List.length l / 2) l 0.

(** The text the loop appends after [parts] when it stands before [ws] with
    the right edge [prev_x1]. *)
Fixpoint text_from (su : Q) (ms : Z) (prev_x1 : Q) (ws : list WordBox) : string :=
  match ws with
  | [] => EmptyString
  | w :: ws' =>
      (separator su ms (get_x0 w - prev_x1) ++ get_text w
       ++ text_from su ms (py_max prev_x1 (get_x1 w)) ws')%string
  end.

(** The right edge after the loop ran over [ws] from the edge [e]. *)
Definition edge_after (e : Q) (ws : list WordBox) : Q :=
  fold_left (fun e w => py_max e (get_x1 w)) ws e.

(** The dictionary without keys. *)
Definition empty_word : WordBox := mkWord None None None None None None.

(** *** Counting spaces *)

(** The number of spaces before a word at distance [gap] from the running
    right edge. *)
Definition spec_spaces (spaceUnitPts : Q) (minSpaces : Z) (gap : Q) : Z :=
  if Qlt_le_dec 0 gap then
    Z.max minSpaces (py_round (gap / Qmax (1 # 2) spaceUnitPts))
  else if Qlt_le_dec (- spaceUnitPts * (3 # 10)) gap then 1%Z
  else 0%Z.

(** The text of an output tuple [(line_text, x0, top, font_size)]. *)
Definition out_text (e : string * Q * Q * Q) : string := fst (fst (fst e)).

(** A string of space characters only. *)
Fixpoint only_spaces (s : string) : Prop :=
  match s with
  | EmptyString => True
  | String c s' => c = " "%char /\ only_spaces s'
  end.

(** A word without text. *)
Definition blank_word : WordBox :=
  mkWord (Some EmptyString) (Some 10) (Some 20) (Some 50) (Some 60) None.

(** *** Medians *)

(** The two middle indices of a sequence of [n] elements; they differ when
    [n] is even. *)
Definition upper_middle_index (n : nat) : nat := (n / 2)%nat.
Definition lower_middle_index (n : nat) : nat := ((n - 1) / 2)%nat.

(** The height of the bounding box of a word. *)
Definition height (w : WordBox) : Q := get_bottom w - get_top w.

(** How many elements of [l] are below [v], and how many are not above it. *)
Definition count_lt (v : Q) (l : list Q) : nat :=
  List.length (filter (fun x => Qltb x v) l).
Definition count_le (v : Q) (l : list Q) : nat :=
  List.length (filter (fun x => Qle_bool x v) l).

(** Two words on one line with the font sizes 10 and 12 and the tops 50 and
    52. *)
Definition small_word : WordBox :=
  mkWord (Some "a"%string) (Some 100) (Some 110) (Some 50) (Some 60) (Some (Num 10)).
Definition large_word : WordBox :=
  mkWord (Some "b"%string) (Some 120) (Some 130) (Some 52) (Some 64) (Some (Num 12)).

(** Two words without font size, of heights 8 and 4. *)
Definition tall_word : WordBox :=
  mkWord (Some "c"%string) (Some 100) (Some 110) (Some 50) (Some 58) None.
Definition flat_word : WordBox :=
  mkWord (Some "d"%string) (Some 120) (Some 130) (Some 50) (Some 54) None.

(** The median rule in the words of the specification: on an even number
    of values the line gets the element at the lower middle index, for the
    font size (when sizes are present) and for the top. *)
Definition lower_middle_rule (ws : list WordBox) (su : Q) (ms : Z) : Prop :=
  forall r, build_line_text ws su ms = Some r ->
    let lw := sorted Qltb get_x0 ws in
    let sizes := sorted Qltb (fun q => q) (collect_sizes lw) in
    let tops := sorted Qltb (fun q => q) (map get_top lw) in
    (sizes <> [] -> Nat.even (List.length sizes) = true ->
     exists v, subscript sizes (lower_middle_index (List.length sizes)) = Some v
               /\ line_font_size r == v)
    /\ (Nat.even (List.length tops) = true ->
        exists v, subscript tops (lower_middle_index (List.length tops)) = Some v
                  /\ line_top r == v).

(** *** Words and strings *)

(** Two elements of [l] whose sort keys do not order them are the same
    element. *)
Definition no_ties {A K : Type} (lt : K -> K -> bool) (key : A -> K) (l : list A) : Prop :=
  forall a b, In a l -> In b l ->
    lt (key a) (key b) = false -> lt (key b) (key a) = false -> a = b.

(** The tops of two words differ by more than [tol]. *)
Definition far_apart (tol : Q) (a b : WordBox) : Prop :=
  tol < Qabs (get_top a - get_top b).

(** A string with a character that [strip] does not remove. *)
Fixpoint has_visible (s : string) : bool :=
  match s with
  | EmptyString => false
  | String c s' => negb (is_space c) || has_visible s'
  end.

(** A string without its space characters. *)
Fixpoint drop_spaces (s : string) : string :=
  match s with
  | EmptyString => EmptyString
  | String c s' =>
      if Ascii.eqb c " "%char then drop_spaces s' else String c (drop_spaces s')
  end.

(** The top of an output tuple [(line_text, x0, top, font_size)]. *)
Definition out_top (e : string * Q * Q * Q) : Q := snd (fst e).

(** The x0 and the font size of an output tuple. *)
Definition out_x0 (e : string * Q * Q * Q) : Q := snd (fst (fst e)).
Definition out_font (e : string * Q * Q * Q) : Q := snd e.

(** The call [insert_text] that the side-by-side renderer makes for the
    line [e] on a page of width [w] is [op]. *)
Definition draws_black (w : Q) (op : draw_op) (e : string * Q * Q * Q) : Prop :=
  op = insert_text (w + out_x0 e) (out_top e + out_font e * (85 # 100))
         (out_text e) (out_font e) "helv" (0, 0, 0) true.

(** The call [insert_text] that the overlay renderer makes for the line [e]
    is [op]. *)
Definition draws_white (op : draw_op) (e : string * Q * Q * Q) : Prop :=
  op = insert_text (out_x0 e) (out_top e + out_font e * (85 # 100))
         (out_text e) (out_font e) "helv" (1, 1, 1) true.

(** The text drawn by [op] starts at or right of [w]; nothing is asked of
    the other calls. *)
Definition text_right_of (w : Q) (op : draw_op) : Prop :=
  match op with
  | insert_text x _ _ _ _ _ _ => w <= x
  | show_pdf_page _ _ => True
  end.

(** The text drawn by [op] has a character that is not white space. *)
Definition text_visible (op : draw_op) : Prop :=
  match op with
  | insert_text _ _ txt _ _ _ _ => has_visible txt = true
  | show_pdf_page _ _ => True
  end.

(** The side-by-side renderer draws [oa] where the overlay renderer draws
    [ob] on a page of width [w]: the same text, size, face and height on the
    page, black instead of white, [w] further to the right. *)
Definition same_text_shifted (w : Q) (oa ob : draw_op) : Prop :=
  exists x y txt fs,
    ob = insert_text x y txt fs "helv" (1, 1, 1) true
    /\ oa = insert_text (w + x) y txt fs "helv" (0, 0, 0) true.

(** The text after the word [prev] when each separator is set by the
    distance to the word just before. *)
Fixpoint text_pairwise (su : Q) (ms : Z) (prev : WordBox) (ws : list WordBox) : string :=
  match ws with
  | [] => EmptyString
  | w :: ws' =>
      (separator su ms (get_x0 w - get_x1 prev) ++ get_text w
       ++ text_pairwise su ms w ws')%string
  end.

(** * Properties *)

(** ** Comparisons *)

Lemma Qltb_lt (a b : Q) : Qltb a b = true <-> a < b.
Proof.
  unfold Qltb. rewrite negb_true_iff. split; intro H.
  - apply Qnot_le_lt. intro Hle. apply Qle_bool_iff in Hle. congruence.
  - destruct (Qle_bool b a) eqn:E; [|reflexivity].
    apply Qle_bool_iff in E. exfalso. exact (Qlt_not_le _ _ H E).
Qed.

Lemma Qltb_ge (a b : Q) : Qltb a b = false <-> b <= a.
Proof.
  unfold Qltb. rewrite negb_false_iff. apply Qle_bool_iff.
Qed.

Lemma Qltb_asym (a b : Q) : Qltb a b = true -> Qltb b a = false.
Proof.
  rewrite Qltb_lt, Qltb_ge. apply Qlt_le_weak.
Qed.

Lemma Qltb_negtrans (a b c : Q) :
  Qltb a b = false -> Qltb b c = false -> Qltb a c = false.
Proof.
  rewrite !Qltb_ge. intros H1 H2. exact (Qle_trans _ _ _ H2 H1).
Qed.

Lemma tuple_ltb_asym (a b : Q * Q) : tuple_ltb a b = true -> tuple_ltb b a = false.
Proof.
  destruct a as [a1 a2], b as [b1 b2]. unfold tuple_ltb. simpl.
  destruct (Qeq_bool a1 b1) eqn:E.
  - apply Qeq_bool_iff in E.
    assert (E' : Qeq_bool b1 a1 = true) by (apply Qeq_bool_iff; symmetry; exact E).
    rewrite E'. apply Qltb_asym.
  - assert (E' : Qeq_bool b1 a1 = false).
    { destruct (Qeq_bool b1 a1) eqn:F; [|reflexivity].
      apply Qeq_bool_iff in F. symmetry in F. apply Qeq_bool_iff in F. congruence. }
    rewrite E'. apply Qltb_asym.
Qed.

(** A tuple that is not below another has a first component that is not
    below the other's. *)
Lemma tuple_ltb_false_fst (a b : Q * Q) : tuple_ltb a b = false -> fst b <= fst a.
Proof.
  destruct a as [a1 a2], b as [b1 b2]. unfold tuple_ltb. simpl.
  destruct (Qeq_bool a1 b1) eqn:E; intro H.
  - apply Qeq_bool_iff in E. rewrite E. apply Qle_refl.
  - apply Qltb_ge. exact H.
Qed.

Lemma tuple_ltb_negtrans (a b c : Q * Q) :
  tuple_ltb a b = false -> tuple_ltb b c = false -> tuple_ltb a c = false.
Proof.
  intros Hab Hbc.
  pose proof (tuple_ltb_false_fst _ _ Hab) as Fab.
  pose proof (tuple_ltb_false_fst _ _ Hbc) as Fbc.
  destruct a as [a1 a2], b as [b1 b2], c as [c1 c2].
  unfold tuple_ltb in *. simpl in *.
  destruct (Qeq_bool a1 c1) eqn:Eac.
  - apply Qeq_bool_iff in Eac.
    assert (Eab : a1 == b1) by (apply Qle_antisym; [rewrite Eac|]; assumption).
    assert (Ebc : b1 == c1) by (rewrite <- Eab; exact Eac).
    apply Qeq_bool_iff in Eab. apply Qeq_bool_iff in Ebc.
    rewrite Eab in Hab. rewrite Ebc in Hbc.
    exact (Qltb_negtrans _ _ _ Hab Hbc).
  - apply Qltb_ge. exact (Qle_trans _ _ _ Fbc Fab).
Qed.

(** ** The stable sort *)

Section SortedFacts.
Context {A K : Type} (lt : K -> K -> bool) (key : A -> K).

Lemma insert_by_perm (x : A) (l : list A) :
  Permutation (insert_by lt key x l) (x :: l).
Proof.
  induction l as [|y l IH]; simpl.
  - apply Permutation_refl.
  - destruct (lt (key y) (key x)).
    + eapply Permutation_trans; [apply perm_skip, IH | apply perm_swap].
    + apply Permutation_refl.
Qed.

Lemma sorted_perm (l : list A) : Permutation (sorted lt key l) l.
Proof.
  induction l as [|x l IH]; simpl.
  - apply perm_nil.
  - eapply Permutation_trans; [apply insert_by_perm | apply perm_skip, IH].
Qed.

Lemma sorted_length (l : list A) : List.length (sorted lt key l) = List.length l.
Proof. apply Permutation_length, sorted_perm. Qed.

Lemma sorted_nil_inv (l : list A) : sorted lt key l = [] -> l = [].
Proof.
  intro H. apply Permutation_nil. rewrite <- H. apply sorted_perm.
Qed.

(** A list already in order is returned as it is. *)
Lemma sorted_id (l : list A) : Sorted (key_le lt key) l -> sorted lt key l = l.
Proof.
  induction 1 as [|x l Hs IH Hd]; [reflexivity|].
  change (sorted lt key (x :: l)) with (insert_by lt key x (sorted lt key l)).
  rewrite IH.
  destruct Hd as [|y l Hxy]; simpl; [reflexivity|].
  unfold key_le in Hxy. rewrite Hxy. reflexivity.
Qed.

Hypothesis lt_asym : forall a b, lt a b = true -> lt b a = false.
Hypothesis lt_negtrans :
  forall a b c, lt a b = false -> lt b c = false -> lt a c = false.

Lemma insert_by_sorted (x : A) (l : list A) :
  StronglySorted (key_le lt key) l -> StronglySorted (key_le lt key) (insert_by lt key x l).
Proof.
  induction 1 as [|y l Hs IH Hall]; simpl.
  - constructor; constructor.
  - destruct (lt (key y) (key x)) eqn:E.
    + constructor; [exact IH|].
      apply (Permutation_Forall (Permutation_sym (insert_by_perm x l))).
      constructor; [exact (lt_asym _ _ E) | exact Hall].
    + constructor; [constructor; assumption|].
      constructor; [exact E|].
      apply Forall_forall. intros z Hz.
      rewrite Forall_forall in Hall. specialize (Hall z Hz).
      unfold key_le in *. exact (lt_negtrans _ _ _ Hall E).
Qed.

Lemma sorted_sorted (l : list A) : StronglySorted (key_le lt key) (sorted lt key l).
Proof.
  induction l as [|x l IH]; simpl.
  - constructor.
  - apply insert_by_sorted, IH.
Qed.
End SortedFacts.

(** ** Clustering as a recursion over the sorted words *)

Lemma clusters_from_nonnil (tol : Q) (ws current : list WordBox) (ct : Q) :
  clusters_from tol current ct ws <> [].
Proof.
  destruct ws as [|w ws]; simpl; [discriminate|].
  destruct (Qle_bool _ _); [|discriminate].
  revert current ct w. induction ws as [|v ws IH]; intros; simpl; [discriminate|].
  destruct (Qle_bool _ _); [apply IH | discriminate].
Qed.

Lemma fold_cluster_step (tol : Q) (ws : list WordBox) :
  forall lines current ct, current <> [] ->
    close_clusters (fold_left (cluster_step tol) ws (lines, current, Some ct))
    = lines ++ clusters_from tol current ct ws.
Proof.
  induction ws as [|w ws IH]; intros lines current ct Hne.
  - simpl. destruct current; [contradiction | reflexivity].
  - change (fold_left (cluster_step tol) (w :: ws) (lines, current, Some ct))
      with (fold_left (cluster_step tol) ws (cluster_step tol (lines, current, Some ct) w)).
    assert (Hstep : cluster_step tol (lines, current, Some ct) w =
                    if Qle_bool (Qabs (get_top w - ct)) tol
                    then (lines, current ++ [w],
                          Some (mean_step ct (List.length current) (get_top w)))
                    else (lines ++ [current], [w], Some (get_top w))).
    { unfold cluster_step, mean_step. rewrite length_app, Nat.add_1_r. reflexivity. }
    rewrite Hstep. cbn [clusters_from].
    destruct (Qle_bool (Qabs (get_top w - ct)) tol).
    + apply IH. destruct current; discriminate.
    + rewrite IH by discriminate. rewrite <- app_assoc. reflexivity.
Qed.

Lemma group_words_into_lines_eq (words : list WordBox) (tol : Q) :
  group_words_into_lines words tol =
  match sorted tuple_ltb (fun w => (get_top w, get_x0 w)) words with
  | [] => []
  | w :: rest => clusters_from tol [w] (get_top w) rest
  end.
Proof.
  unfold group_words_into_lines. destruct words as [|w0 words]; [reflexivity|].
  destruct (sorted tuple_ltb _ (w0 :: words)) as [|w rest] eqn:E.
  - apply sorted_nil_inv in E. discriminate.
  - cbn [fold_left cluster_step].
    apply (fold_cluster_step tol rest [] [w] (get_top w)). discriminate.
Qed.

Lemma clusters_from_concat (tol : Q) (ws : list WordBox) :
  forall current ct, List.concat (clusters_from tol current ct ws) = current ++ ws.
Proof.
  induction ws as [|w ws IH]; intros current ct; simpl.
  - reflexivity.
  - destruct (Qle_bool _ _); simpl.
    + rewrite IH, <- app_assoc. reflexivity.
    + rewrite IH. reflexivity.
Qed.

Lemma clusters_from_nonempty (tol : Q) (ws : list WordBox) :
  forall current ct, current <> [] ->
    Forall (fun c => c <> []) (clusters_from tol current ct ws).
Proof.
  induction ws as [|w ws IH]; intros current ct Hne; simpl.
  - constructor; [exact Hne | constructor].
  - destruct (Qle_bool _ _).
    + apply IH. destruct current; discriminate.
    + constructor; [exact Hne|]. apply IH. discriminate.
Qed.

(** ** Counting the clusters *)

Lemma clusters_from_length (tol : Q) (ws : list WordBox) :
  forall current ct,
    List.length (clusters_from tol current ct ws)
    = S (breaks tol ct (List.length current) (map get_top ws)).
Proof.
  induction ws as [|w ws IH]; intros current ct; simpl.
  - reflexivity.
  - destruct (Qle_bool _ _); simpl.
    + rewrite IH, length_app, Nat.add_1_r. reflexivity.
    + rewrite IH. reflexivity.
Qed.

(** The tops of the words sorted for clustering ascend. *)
Lemma sorted_tops_ascend (ws : list WordBox) :
  StronglySorted Qle
    (map get_top (sorted tuple_ltb (fun w => (get_top w, get_x0 w)) ws)).
Proof.
  pose proof (sorted_sorted tuple_ltb (fun w => (get_top w, get_x0 w))
                tuple_ltb_asym tuple_ltb_negtrans ws) as H.
  induction H as [|w l Hs IH Hall]; simpl; constructor.
  - exact IH.
  - apply Forall_map. eapply Forall_impl; [|exact Hall].
    intros v Hv. exact (tuple_ltb_false_fst _ _ Hv).
Qed.

(** ** Properties of word clustering *)

(** C5.  Clustering coverage: the clusters, one after the other, are the
    words sorted by [(top, x0)], hence a permutation of the input: no word is
    dropped and none is duplicated. *)
Theorem clustering_coverage (words : list WordBox) (line_tol : Q) :
  List.concat (group_words_into_lines words line_tol)
  = sorted tuple_ltb (fun w => (get_top w, get_x0 w)) words
  /\ Permutation (List.concat (group_words_into_lines words line_tol)) words.
Proof.
  assert (E : List.concat (group_words_into_lines words line_tol)
              = sorted tuple_ltb (fun w => (get_top w, get_x0 w)) words).
  { rewrite group_words_into_lines_eq.
    destruct (sorted tuple_ltb _ words) as [|w rest]; [reflexivity|].
    apply clusters_from_concat. }
  split; [exact E|]. rewrite E. apply sorted_perm.
Qed.


(** ** Strings *)

Lemma string_app_assoc (a b c : string) : ((a ++ b) ++ c = a ++ (b ++ c))%string.
Proof.
  induction a as [|x a IH]; simpl; [reflexivity | rewrite IH; reflexivity].
Qed.

Lemma string_app_nil_r (a : string) : (a ++ EmptyString = a)%string.
Proof.
  induction a as [|x a IH]; simpl; [reflexivity | rewrite IH; reflexivity].
Qed.

(** Joining with the empty separator is plain concatenation. *)
Lemma join_cons (x : string) (l : list string) :
  String.concat EmptyString (x :: l) = (x ++ String.concat EmptyString l)%string.
Proof.
  destruct l as [|y l]; simpl; [rewrite string_app_nil_r|]; reflexivity.
Qed.

Lemma join_app (l1 l2 : list string) :
  String.concat EmptyString (l1 ++ l2)
  = (String.concat EmptyString l1 ++ String.concat EmptyString l2)%string.
Proof.
  induction l1 as [|x l1 IH].
  - reflexivity.
  - rewrite <- app_comm_cons, !join_cons, IH, string_app_assoc. reflexivity.
Qed.

(** ** Line synthesis as a recursion over the sorted words *)

Lemma fold_text_step (su : Q) (ms : Z) (ws : list WordBox) :
  forall parts prev last,
    fold_left (text_step su ms) ws (parts, prev, last)
    = (fst (fst (fold_left (text_step su ms) ws (parts, prev, last))),
       edge_after prev ws, edge_after last ws)
    /\ String.concat EmptyString
         (fst (fst (fold_left (text_step su ms) ws (parts, prev, last))))
       = (String.concat EmptyString parts ++ text_from su ms prev ws)%string.
Proof.
  induction ws as [|w ws IH]; intros parts prev last.
  - cbn [fold_left fst text_from edge_after]. rewrite string_app_nil_r.
    split; reflexivity.
  - change (fold_left (text_step su ms) (w :: ws) (parts, prev, last))
      with (fold_left (text_step su ms) ws
              (parts ++ [separator su ms (get_x0 w - prev); get_text w],
               py_max prev (get_x1 w), py_max last (get_x1 w))).
    destruct (IH (parts ++ [separator su ms (get_x0 w - prev); get_text w])
                (py_max prev (get_x1 w)) (py_max last (get_x1 w))) as [E1 E2].
    split; [exact E1|].
    rewrite E2, join_app, !join_cons. cbn [text_from String.concat].
    rewrite !string_app_assoc. reflexivity.
Qed.

Lemma half_lt (n : nat) : (0 < n)%nat -> (n / 2 < n)%nat.
Proof. intro H. apply Nat.div_lt; lia. Qed.

Lemma subscript_middle (l : list Q) :
  l <> [] -> subscript l (List.length l / 2) = Some (middle l).
Proof.
  intro H. unfold subscript, middle. apply nth_error_nth'.
  apply half_lt. destruct l; [contradiction | simpl; lia].
Qed.

(** The font size of the line whose words, sorted by [x0], are [lw]. *)
Lemma font_size_eq (lw : list WordBox) :
  lw <> [] ->
  match collect_sizes lw with
  | _ :: _ =>
      let sizes_sorted := sorted Qltb (fun q => q) (collect_sizes lw) in
      subscript sizes_sorted (List.length sizes_sorted / 2)
  | [] =>
      let hs := sorted Qltb (fun q => q) (map bbox_height lw) in
      match hs with
      | _ :: _ => subscript hs (List.length hs / 2)
      | [] => Some 10
      end
  end
  = Some (match collect_sizes lw with
          | _ :: _ => middle (sorted Qltb (fun q => q) (collect_sizes lw))
          | [] => middle (sorted Qltb (fun q => q) (map bbox_height lw))
          end).
Proof.
  intro Hne. destruct (collect_sizes lw) as [|s sizes] eqn:E; cbv zeta.
  - destruct (sorted Qltb (fun q => q) (map bbox_height lw)) as [|h hs] eqn:Eh.
    + apply sorted_nil_inv in Eh. destruct lw; [contradiction | discriminate].
    + apply subscript_middle. discriminate.
  - apply subscript_middle. intro H. apply sorted_nil_inv in H. discriminate.
Qed.

(** What [build_line_text] returns on a non-empty cluster. *)
Lemma build_line_text_sorted (ws : list WordBox) (su : Q) (ms : Z) w rest :
  sorted Qltb get_x0 ws = w :: rest ->
  build_line_text ws su ms =
  Some (mkLine
          (get_text w ++ text_from su ms (get_x1 w) rest)
          (get_x0 w)
          (edge_after (get_x1 w) rest)
          (middle (sorted Qltb (fun q => q) (map get_top (w :: rest))))
          (match collect_sizes (w :: rest) with
           | _ :: _ => middle (sorted Qltb (fun q => q) (collect_sizes (w :: rest)))
           | [] => middle (sorted Qltb (fun q => q) (map bbox_height (w :: rest)))
           end)).
Proof.
  intro E. unfold build_line_text. rewrite E.
  rewrite font_size_eq by discriminate. cbn [bind].
  replace (List.length (w :: rest))
    with (List.length (sorted Qltb (fun q => q) (map get_top (w :: rest))))
    by (rewrite sorted_length, length_map; reflexivity).
  rewrite subscript_middle
    by (intro H; apply sorted_nil_inv in H; discriminate).
  cbn [bind subscript nth_error tl].
  destruct (fold_text_step su ms rest [get_text w] (get_x1 w) (get_x1 w)) as [E1 E2].
  rewrite E1, E2. cbn [String.concat]. reflexivity.
Qed.

Lemma build_line_text_nil (su : Q) (ms : Z) : build_line_text [] su ms = None.
Proof. reflexivity. Qed.

Lemma build_line_text_some (ws : list WordBox) (su : Q) (ms : Z) :
  ws <> [] -> exists r, build_line_text ws su ms = Some r.
Proof.
  intro Hne. destruct (sorted Qltb get_x0 ws) as [|w rest] eqn:E.
  - apply sorted_nil_inv in E. contradiction.
  - eexists. apply (build_line_text_sorted ws su ms w rest E).
Qed.

(** ** Clusters are never empty *)

Lemma group_nonempty (words : list WordBox) (line_tol : Q) :
  Forall (fun c => c <> []) (group_words_into_lines words line_tol).
Proof.
  rewrite group_words_into_lines_eq.
  destruct (sorted tuple_ltb _ words) as [|w rest]; [constructor|].
  apply clusters_from_nonempty. discriminate.
Qed.

(** C9.  Every cluster returned by [group_words_into_lines] has a word, so
    on each of them the two subscripts of [build_line_text], the first word
    and the middle of the sorted tops, are in range and the call returns;
    on the empty list it raises. *)
Theorem clusters_nonempty (words : list WordBox) (line_tol su : Q) (ms : Z) :
  Forall (fun c =>
            c <> []
            /\ subscript (sorted Qltb get_x0 c) 0 <> None
            /\ subscript (sorted Qltb (fun q => q) (map get_top (sorted Qltb get_x0 c)))
                         (List.length (sorted Qltb get_x0 c) / 2) <> None
            /\ exists r, build_line_text c su ms = Some r)
         (group_words_into_lines words line_tol)
  /\ build_line_text [] su ms = None.
Proof.
  split; [|reflexivity].
  eapply Forall_impl; [|apply group_nonempty]. cbv beta. intros c Hc.
  split; [exact Hc|].
  assert (Hl : (0 < List.length c)%nat) by (destruct c; [contradiction | simpl; lia]).
  repeat split.
  - unfold subscript. apply nth_error_Some. rewrite sorted_length. exact Hl.
  - unfold subscript. apply nth_error_Some.
    rewrite !sorted_length, length_map, sorted_length. apply half_lt, Hl.
  - apply build_line_text_some, Hc.
Qed.

(** ** The empty page *)

(** C8.  A page without words has no cluster and no line, and nothing is
    raised on the way. *)
Theorem empty_page (line_tol su : Q) (ms : Z) :
  group_words_into_lines [] line_tol = []
  /\ page_lines [] line_tol su ms = Some []
  /\ extract_lines_with_positions [[]] line_tol su ms = Some [[]].
Proof. repeat split. Qed.

(** ** Scenario 1 *)

(** C6.  The words Hello (x0 100, x1 140, top 50) and World (x0 160, x1 200,
    top 50) with tolerance 2, space unit 3 and one space at least: one
    cluster of both words, and one line whose text is Hello, seven spaces,
    World. *)
Theorem scenario1 :
  group_words_into_lines [hello; world] 2 = [[hello; world]]
  /\ map (fun c => build_line_text c 3 1) (group_words_into_lines [hello; world] 2)
     = [Some (mkLine ("Hello" ++ spaces_nat 7 ++ "World") 100 200 50 10)]
  /\ page_lines [hello; world] 2 3 1
     = Some [(("Hello" ++ spaces_nat 7 ++ "World")%string, 100, 50, 10)]
  /\ separator 3 1 (160 - 140) = spaces (Z.max 1 (py_round (20 / 3)))
  /\ py_round (20 / 3) = 7%Z.
Proof. vm_compute. repeat split. Qed.

(** ** Blank lines *)

Lemma lstrip_only_spaces (s : string) : only_spaces s -> lstrip s = EmptyString.
Proof.
  induction s as [|c s IH]; simpl; [reflexivity|].
  intros [-> H]. simpl. apply IH, H.
Qed.

Lemma strip_only_spaces (s : string) : only_spaces s -> strip s = EmptyString.
Proof.
  intro H. unfold strip. rewrite (lstrip_only_spaces s H). reflexivity.
Qed.

Lemma only_spaces_app (a b : string) :
  only_spaces a -> only_spaces b -> only_spaces (a ++ b).
Proof.
  induction a as [|c a IH]; simpl; [tauto|].
  intros [-> Ha] Hb. split; [reflexivity | apply IH; assumption].
Qed.

Lemma only_spaces_spaces_nat (n : nat) : only_spaces (spaces_nat n).
Proof.
  induction n as [|n IH]; simpl; [exact I | split; [reflexivity | exact IH]].
Qed.

Lemma only_spaces_separator (su : Q) (ms : Z) (gap : Q) :
  only_spaces (separator su ms gap).
Proof.
  unfold separator.
  destruct (Qltb 0 gap); [apply only_spaces_spaces_nat|].
  destruct (Qltb _ gap); simpl; tauto.
Qed.

Lemma only_spaces_text_from (su : Q) (ms : Z) (ws : list WordBox) :
  Forall (fun w => get_text w = EmptyString) ws ->
  forall prev, only_spaces (text_from su ms prev ws).
Proof.
  induction 1 as [|w ws Hw Hall IH]; intro prev; simpl; [exact I|].
  rewrite Hw. simpl.
  apply only_spaces_app; [apply only_spaces_separator | apply IH].
Qed.

Lemma page_out_total (lines : list (list WordBox)) (su : Q) (ms : Z) :
  Forall (fun c => c <> []) lines ->
  exists out, page_out lines su ms = Some out
              /\ Forall (fun e => strip (out_text e) <> EmptyString) out.
Proof.
  induction 1 as [|c lines Hc Hall IH].
  - exists []. split; [reflexivity | constructor].
  - destruct IH as (out & E & Hout).
    destruct (build_line_text_some c su ms Hc) as [r Er].
    cbn [page_out]. rewrite Er, E. cbn [bind].
    destruct (strip (line_text r)) eqn:Es; cbn [truthy].
    + exists out. split; [reflexivity | exact Hout].
    + eexists. split; [reflexivity|].
      constructor; [|exact Hout].
      unfold out_text. cbn [fst]. rewrite Es. discriminate.
Qed.

(** C7.  Every line in the output of a page has a text that is not empty
    once stripped; a cluster whose text strips to nothing adds no entry; and
    a cluster of words whose texts are all empty is such a cluster. *)
Theorem blank_lines_dropped (su : Q) (ms : Z) :
  (forall words line_tol,
      exists out, page_lines words line_tol su ms = Some out
                  /\ Forall (fun e => strip (out_text e) <> EmptyString) out)
  /\ (forall lw rest r,
         build_line_text lw su ms = Some r ->
         strip (line_text r) = EmptyString ->
         page_out (lw :: rest) su ms = page_out rest su ms)
  /\ (forall lw,
         lw <> [] ->
         Forall (fun w => get_text w = EmptyString) lw ->
         exists r, build_line_text lw su ms = Some r
                   /\ strip (line_text r) = EmptyString).
Proof.
  split; [|split].
  - intros words line_tol. unfold page_lines.
    apply page_out_total, group_nonempty.
  - intros lw rest r E Hs. cbn [page_out]. rewrite E. cbn [bind].
    rewrite Hs. cbn [truthy].
    destruct (page_out rest su ms); reflexivity.
  - intros lw Hne Hall.
    destruct (sorted Qltb get_x0 lw) as [|w rest] eqn:E.
    { apply sorted_nil_inv in E. contradiction. }
    eexists. split; [apply (build_line_text_sorted lw su ms w rest E)|].
    cbn [line_text]. apply strip_only_spaces.
    assert (Hall' : Forall (fun w => get_text w = EmptyString) (w :: rest)).
    { rewrite <- E.
      apply (Permutation_Forall (Permutation_sym (sorted_perm Qltb get_x0 lw))).
      exact Hall. }
    inversion Hall' as [|? ? Hw Hrest]; subst.
    rewrite Hw. simpl. apply only_spaces_text_from, Hrest.
Qed.

Lemma blank_lines_dropped_witness :
  page_out [[blank_word; blank_word]; [hello; world]] 3 1
  = page_out [[hello; world]] 3 1.
Proof.
  destruct (blank_lines_dropped 3 1) as (_ & Hdrop & Hblank).
  destruct (Hblank [blank_word; blank_word]) as (r & Er & Hs).
  - discriminate.
  - repeat constructor.
  - exact (Hdrop [blank_word; blank_word] [[hello; world]] r Er Hs).
Defined.

(** ** The separator *)

Lemma py_max_Qmax (a b : Q) : py_max a b = Qmax a b.
Proof.
  unfold py_max, Qmax, GenericMinMax.gmax.
  destruct (Qltb a b) eqn:E.
  - apply Qltb_lt in E. destruct (Qlt_alt a b) as [H _].
    rewrite (H E). reflexivity.
  - destruct (a ?= b) eqn:C; try reflexivity.
    destruct (Qlt_alt a b) as [_ H]. apply H, Qltb_lt in C. congruence.
Qed.

Lemma py_max_half_pos (su : Q) : 0 < py_max (1 # 2) su.
Proof.
  unfold py_max. destruct (Qltb (1 # 2) su) eqn:E; [|reflexivity].
  apply Qltb_lt in E. lra.
Qed.

Lemma py_round_nonneg (q : Q) : 0 <= q -> (0 <= py_round q)%Z.
Proof.
  intro H. apply Qfloor_resp_le in H. change (Qfloor 0) with 0%Z in H.
  unfold py_round. destruct (_ ?= _); [destruct (Z.even _)| |]; lia.
Qed.

Lemma gap_ratio_pos (su gap : Q) : 0 < gap -> 0 < gap / py_max (1 # 2) su.
Proof.
  intro H. apply Qlt_shift_div_l; [apply py_max_half_pos | lra].
Qed.

(** The separator of the code has the number of spaces the specification
    states. *)
Lemma separator_spec (su : Q) (ms : Z) (gap : Q) :
  separator su ms gap = spaces (spec_spaces su ms gap).
Proof.
  unfold separator, spec_spaces. rewrite py_max_Qmax.
  destruct (Qltb 0 gap) eqn:E; destruct (Qlt_le_dec 0 gap) as [H|H].
  - reflexivity.
  - apply Qltb_lt in E. lra.
  - apply Qltb_ge in E. lra.
  - destruct (Qltb (- su * (3 # 10)) gap) eqn:F;
      destruct (Qlt_le_dec (- su * (3 # 10)) gap) as [G|G]; try reflexivity.
    + apply Qltb_lt in F. lra.
    + apply Qltb_ge in F. lra.
Qed.

Lemma spec_spaces_cases (su : Q) (ms : Z) (gap : Q) :
  (0 <= spec_spaces su ms gap)%Z
  /\ (0 < gap ->
      spec_spaces su ms gap = Z.max ms (py_round (gap / Qmax (1 # 2) su))
      /\ (ms <= spec_spaces su ms gap)%Z)
  /\ (gap <= 0 -> - su * (3 # 10) < gap -> spec_spaces su ms gap = 1%Z)
  /\ (gap <= 0 -> gap <= - su * (3 # 10) -> spec_spaces su ms gap = 0%Z).
Proof.
  unfold spec_spaces.
  destruct (Qlt_le_dec 0 gap) as [H|H].
  - pose proof (py_round_nonneg _ (Qlt_le_weak _ _ (gap_ratio_pos su gap H))) as Hr.
    rewrite py_max_Qmax in Hr.
    repeat split; try lia; intros; lra.
  - destruct (Qlt_le_dec (- su * (3 # 10)) gap) as [G|G];
      repeat split; try lia; intros; try reflexivity; lra.
Qed.

Lemma fold_Qmax_is_max (l : list Q) :
  forall e, In (fold_left Qmax l e) (e :: l)
            /\ Forall (fun x => x <= fold_left Qmax l e) (e :: l).
Proof.
  induction l as [|x l IH]; intro e; cbn [fold_left].
  - split; [left; reflexivity | constructor; [apply Qle_refl | constructor]].
  - destruct (IH (Qmax e x)) as [Hin Hall].
    inversion Hall as [|? ? Hm Hl]; subst.
    split.
    + destruct Hin as [Hin|Hin]; [|right; right; exact Hin].
      rewrite <- Hin. unfold Qmax, GenericMinMax.gmax.
      destruct (e ?= x); simpl; auto.
    + constructor; [exact (Qle_trans _ _ _ (Q.le_max_l e x) Hm)|].
      constructor; [exact (Qle_trans _ _ _ (Q.le_max_r e x) Hm) | exact Hl].
Qed.

Lemma sorted_by_x0 (ws : list WordBox) :
  Sorted (fun a b => get_x0 a <= get_x0 b) ws -> sorted Qltb get_x0 ws = ws.
Proof.
  intro H. apply sorted_id.
  induction H as [|w l Hs IH Hd]; constructor; [exact IH|].
  destruct Hd as [|v l Hv]; constructor.
  unfold key_le. apply Qltb_ge. exact Hv.
Qed.

(** ** Medians *)

(** C3, as the code has it.  The representative top is the element at index
    [len // 2] of the sorted tops, and the font size, when sizes were
    collected, the element at index [len // 2] of the sorted sizes; for a
    sequence of even length [2 * k] that is index [k], the upper middle one,
    one above the lower middle index [k - 1]. *)
Theorem median_upper_middle (ws : list WordBox) (su : Q) (ms : Z) :
  ws <> [] ->
  exists r,
    build_line_text ws su ms = Some r
    /\ (let tops := sorted Qltb (fun q => q) (map get_top (sorted Qltb get_x0 ws)) in
        subscript tops (upper_middle_index (List.length tops)) = Some (line_top r))
    /\ (let sizes := sorted Qltb (fun q => q) (collect_sizes (sorted Qltb get_x0 ws)) in
        sizes <> [] ->
        subscript sizes (upper_middle_index (List.length sizes)) = Some (line_font_size r))
    /\ (forall k, (0 < k)%nat ->
          upper_middle_index (2 * k) = k
          /\ lower_middle_index (2 * k) = (k - 1)%nat
          /\ upper_middle_index (2 * k + 1) = k
          /\ lower_middle_index (2 * k + 1) = k).
Proof.
  intro Hne. destruct (sorted Qltb get_x0 ws) as [|w rest] eqn:E.
  { apply sorted_nil_inv in E. contradiction. }
  eexists. split; [apply (build_line_text_sorted ws su ms w rest E)|].
  cbn [line_top line_font_size]. unfold upper_middle_index, lower_middle_index.
  split; [|split].
  - apply subscript_middle. intro H. apply sorted_nil_inv in H. discriminate.
  - cbv zeta. intro Hs. destruct (collect_sizes (w :: rest)) as [|q qs] eqn:Eq.
    + contradiction Hs. reflexivity.
    + apply subscript_middle, Hs.
  - intros k Hk. repeat split.
    + rewrite Nat.mul_comm. apply Nat.div_mul. discriminate.
    + replace (2 * k - 1)%nat with (1 + (k - 1) * 2)%nat by lia.
      rewrite Nat.div_add by discriminate. reflexivity.
    + replace (2 * k + 1)%nat with (1 + k * 2)%nat by lia.
      rewrite Nat.div_add by discriminate. reflexivity.
    + replace (2 * k + 1 - 1)%nat with (k * 2)%nat by lia.
      apply Nat.div_mul. discriminate.
Qed.

Lemma median_upper_middle_witness :
  exists r,
    build_line_text [small_word; large_word] 3 1 = Some r
    /\ subscript (sorted Qltb (fun q => q)
                    (map get_top (sorted Qltb get_x0 [small_word; large_word])))
                 (upper_middle_index 2) = Some (line_top r).
Proof.
  destruct (median_upper_middle [small_word; large_word] 3 1) as (r & E & Ht & _).
  - discriminate.
  - exists r. split; [exact E | exact Ht].
Defined.

(** C3, as the specification words it, fails: on the words of sizes 10 and
    12 and tops 50 and 52 the lower middle elements are 10 and 50, and the
    line gets the size 12 and the top 52. *)
Lemma median_lower_middle_counterexample :
  build_line_text [small_word; large_word] 3 1
  = Some (mkLine ("a" ++ spaces_nat 3 ++ "b") 100 130 52 12)
  /\ ~ lower_middle_rule [small_word; large_word] 3 1.
Proof.
  split; [vm_compute; reflexivity|].
  intro H. destruct (H _ eq_refl) as [Hsize _].
  destruct Hsize as (v & Ev & Hv); [discriminate | reflexivity |].
  vm_compute in Ev. injection Ev as <-. discriminate Hv.
Qed.

(** ** Order statistics *)

Section Counting.
Context {A : Type}.

Lemma filter_length_perm (p : A -> bool) (l l' : list A) :
  Permutation l l' -> List.length (filter p l) = List.length (filter p l').
Proof.
  induction 1 as [|x l l' _ IH|x y l|l l' l'' _ IH1 _ IH2]; simpl.
  - reflexivity.
  - destruct (p x); simpl; rewrite IH; reflexivity.
  - destruct (p x), (p y); reflexivity.
  - rewrite IH1. exact IH2.
Qed.

Lemma filter_length_le (p q : A -> bool) (l : list A) :
  (forall x, In x l -> p x = true -> q x = true) ->
  (List.length (filter p l) <= List.length (filter q l))%nat.
Proof.
  induction l as [|x l IH]; intro H; simpl; [lia|].
  assert (IH' : (List.length (filter p l) <= List.length (filter q l))%nat).
  { apply IH. intros y Hy. apply H. right. exact Hy. }
  destruct (p x) eqn:Ep.
  - rewrite (H x (or_introl eq_refl) Ep). simpl. lia.
  - destruct (q x); simpl; lia.
Qed.

Lemma filter_length_map {B : Type} (f : A -> B) (p : B -> bool) (l : list A) :
  List.length (filter p (map f l)) = List.length (filter (fun x => p (f x)) l).
Proof.
  induction l as [|x l IH]; simpl; [reflexivity|].
  destruct (p (f x)); simpl; rewrite IH; reflexivity.
Qed.
End Counting.

Lemma sorted_Q_ascend (l : list Q) :
  StronglySorted Qle (sorted Qltb (fun q => q) l).
Proof.
  pose proof (sorted_sorted Qltb (fun q => q) Qltb_asym Qltb_negtrans l) as H.
  induction H as [|a s Hs IH Ha]; constructor; [exact IH|].
  eapply Forall_impl; [|exact Ha]. intros b Hb. apply Qltb_ge. exact Hb.
Qed.

(** In an ascending list, fewer than [k + 1] elements are below the element
    of index [k] and more than [k] are not above it. *)
Lemma sorted_counts (s : list Q) :
  StronglySorted Qle s ->
  forall k, (k < List.length s)%nat ->
    (count_lt (nth k s 0%Q) s <= k)%nat /\ (k < count_le (nth k s 0%Q) s)%nat.
Proof.
  unfold count_lt, count_le.
  induction 1 as [|a s Hs IH Ha]; intros k Hk; [simpl in Hk; lia|].
  destruct k as [|k]; cbn [nth filter].
  - assert (E : Qltb a a = false) by (apply Qltb_ge, Qle_refl).
    assert (F : Qle_bool a a = true) by (apply Qle_bool_iff, Qle_refl).
    rewrite E, F. split; [|simpl; lia].
    pose proof (filter_length_le (fun x => Qltb x a) (fun _ => false) s) as H.
    assert (Hz : List.length (filter (fun _ : Q => false) s) = 0%nat).
    { clear. induction s; simpl; auto. }
    rewrite Hz in H. apply H. intros x Hx Hlt.
    rewrite Forall_forall in Ha. apply Qltb_lt in Hlt.
    pose proof (Ha x Hx). lra.
  - simpl in Hk. destruct (IH k ltac:(lia)) as [H1 H2].
    assert (Hav : a <= nth k s 0).
    { rewrite Forall_forall in Ha. apply Ha, nth_In. lia. }
    apply Qle_bool_iff in Hav. rewrite Hav.
    destruct (Qltb a (nth k s 0)); simpl; lia.
Qed.

(** The two counts determine the value. *)
Lemma counts_unique (l : list Q) (k : nat) (v v' : Q) :
  (count_lt v l <= k < count_le v l)%nat ->
  (count_lt v' l <= k < count_le v' l)%nat ->
  v == v'.
Proof.
  unfold count_lt, count_le. intros [H1 H2] [H1' H2'].
  destruct (Q_dec v v') as [[H|H]|H]; [| |exact H]; exfalso.
  - pose proof (filter_length_le (fun x => Qle_bool x v) (fun x => Qltb x v') l) as Hle.
    assert (Hi : forall x, In x l -> Qle_bool x v = true -> Qltb x v' = true).
    { intros x _ Hx. apply Qle_bool_iff in Hx. apply Qltb_lt. lra. }
    specialize (Hle Hi). lia.
  - pose proof (filter_length_le (fun x => Qle_bool x v') (fun x => Qltb x v) l) as Hle.
    assert (Hi : forall x, In x l -> Qle_bool x v' = true -> Qltb x v = true).
    { intros x _ Hx. apply Qle_bool_iff in Hx. apply Qltb_lt. lra. }
    specialize (Hle Hi). lia.
Qed.

(** The middle of the sorted images under an ascending function is the image
    of the middle of the sorted values, in whatever order the values come. *)
Lemma middle_sorted_map (f : Q -> Q) (l1 l2 : list Q) :
  (forall x y, x <= y -> f x <= f y) ->
  Permutation l1 l2 -> l1 <> [] ->
  middle (sorted Qltb (fun q => q) (map f l1))
  == f (middle (sorted Qltb (fun q => q) l2)).
Proof.
  intros Hf Hp Hne.
  set (s1 := sorted Qltb (fun q => q) (map f l1)).
  set (s2 := sorted Qltb (fun q => q) l2).
  assert (Hlen : (0 < List.length l1)%nat) by (destruct l1; [contradiction | simpl; lia]).
  assert (L1 : List.length s1 = List.length l1)
    by (unfold s1; rewrite sorted_length, length_map; reflexivity).
  assert (L2 : List.length s2 = List.length l1)
    by (unfold s2; rewrite sorted_length; symmetry; apply Permutation_length, Hp).
  unfold middle. rewrite L1, L2. set (k := (List.length l1 / 2)%nat).
  assert (Hk : (k < List.length l1)%nat) by (apply half_lt, Hlen).
  destruct (sorted_counts s1 (sorted_Q_ascend _) k ltac:(lia)) as [A1 A2].
  destruct (sorted_counts s2 (sorted_Q_ascend _) k ltac:(lia)) as [B1 B2].
  set (u := nth k s1 0) in *. set (v := nth k s2 0) in *.
  assert (P1 : Permutation s1 (map f l1)) by apply sorted_perm.
  assert (P2 : Permutation s2 l1).
  { eapply Permutation_trans; [apply sorted_perm | apply Permutation_sym, Hp]. }
  unfold count_lt, count_le in *.
  rewrite (filter_length_perm _ _ _ P1) in A1.
  rewrite (filter_length_perm _ _ _ P1) in A2.
  rewrite (filter_length_perm _ _ _ P2) in B1.
  rewrite (filter_length_perm _ _ _ P2) in B2.
  apply (counts_unique (map f l1) k); unfold count_lt, count_le; [lia|].
  rewrite !filter_length_map. split.
  - eapply Nat.le_trans; [|exact B1]. apply filter_length_le.
    intros x _ Hx. apply Qltb_lt in Hx. apply Qltb_lt.
    apply Qnot_le_lt. intro Hle. apply Hf in Hle. lra.
  - eapply Nat.lt_le_trans; [exact B2|]. apply filter_length_le.
    intros x _ Hx. apply Qle_bool_iff in Hx. apply Qle_bool_iff. apply Hf, Hx.
Qed.

Lemma collect_sizes_perm (l l' : list WordBox) :
  Permutation l l' -> Permutation (collect_sizes l) (collect_sizes l').
Proof.
  induction 1 as [|x l l' _ IH|x y l|l l' l'' _ IH1 _ IH2]; simpl.
  - constructor.
  - destruct (size x) as [[q|]|]; [constructor|..]; exact IH.
  - destruct (size x) as [[q|]|], (size y) as [[q'|]|];
      try apply Permutation_refl. apply perm_swap.
  - exact (Permutation_trans IH1 IH2).
Qed.

Lemma Qmax_floor_mono (c x y : Q) : x <= y -> Qmax c x <= Qmax c y.
Proof. intro H. apply Q.max_le_compat_l, H. Qed.

(** ** The font size without sizes *)

(** C4.  On a non-empty cluster from which no font size is collected and
    whose words have a top and a bottom with [top <= bottom], the font size
    is the median (the element at index [len // 2] of the sorted sequence) of
    the heights [bottom - top] of the words, floored at 6. *)
Theorem font_size_fallback (ws : list WordBox) (su : Q) (ms : Z) :
  ws <> [] ->
  collect_sizes ws = [] ->
  Forall (fun w => exists t b, top w = Some t /\ bottom w = Some b /\ t <= b) ws ->
  exists r,
    build_line_text ws su ms = Some r
    /\ line_font_size r
       == Qmax 6 (middle (sorted Qltb (fun q => q) (map height ws))).
Proof.
  intros Hne Hsz _.
  destruct (sorted Qltb get_x0 ws) as [|w rest] eqn:E.
  { apply sorted_nil_inv in E. contradiction. }
  eexists. split; [apply (build_line_text_sorted ws su ms w rest E)|].
  cbn [line_font_size].
  pose proof (sorted_perm Qltb get_x0 ws) as Hp. rewrite E in Hp.
  assert (Hsz' : collect_sizes (w :: rest) = []).
  { apply Permutation_nil. rewrite <- Hsz.
    apply Permutation_sym, collect_sizes_perm, Hp. }
  rewrite Hsz'.
  replace (map bbox_height (w :: rest)) with (map (Qmax 6) (map height (w :: rest))).
  - apply middle_sorted_map.
    + intros x y. apply Qmax_floor_mono.
    + apply Permutation_map, Hp.
    + discriminate.
  - rewrite map_map. apply map_ext. intro a.
    unfold bbox_height, height. symmetry. apply py_max_Qmax.
Qed.

Lemma font_size_fallback_witness :
  exists r,
    build_line_text [tall_word; flat_word] 3 1 = Some r
    /\ line_font_size r
       == Qmax 6 (middle (sorted Qltb (fun q => q) (map height [tall_word; flat_word]))).
Proof.
  apply (font_size_fallback [tall_word; flat_word] 3 1).
  - discriminate.
  - reflexivity.
  - repeat constructor.
    + exists 50, 58. repeat split. vm_compute. discriminate.
    + exists 50, 54. repeat split. vm_compute. discriminate.
Defined.

(** * Further properties of the code *)

(** ** A negative tolerance *)

Lemma singletons_from (tol : Q) (ws : list WordBox) :
  forall w,
    ForallOrdPairs (far_apart tol) (w :: ws) ->
    clusters_from tol [w] (get_top w) ws = map (fun v => [v]) (w :: ws).
Proof.
  induction ws as [|v ws IH]; intros w H; cbn [clusters_from].
  - reflexivity.
  - inversion H as [|? ? Hw Hrest]; subst.
    inversion Hw as [|? ? Hwv _]; subst.
    assert (E : Qle_bool (Qabs (get_top v - get_top w)) tol = false).
    { destruct (Qle_bool _ tol) eqn:E; [|reflexivity].
      apply Qle_bool_iff in E. unfold far_apart in Hwv.
      rewrite Qabs_Qminus in Hwv. lra. }
    rewrite E, (IH v Hrest). reflexivity.
Qed.

(** X6.  With a negative [line_tol] no word ever joins a cluster: every word
    is a cluster of its own. *)
Theorem negative_tolerance_splits_all (words : list WordBox) (line_tol : Q) :
  line_tol < 0 ->
  group_words_into_lines words line_tol
  = map (fun w => [w]) (sorted tuple_ltb (fun w => (get_top w, get_x0 w)) words).
Proof.
  intro Hneg. rewrite group_words_into_lines_eq.
  destruct (sorted tuple_ltb _ words) as [|w rest]; [reflexivity|].
  apply singletons_from.
  assert (Hfar : forall a b, far_apart line_tol a b).
  { intros a b. unfold far_apart.
    pose proof (Qabs_nonneg (get_top a - get_top b)). lra. }
  induction (w :: rest) as [|v l IH]; constructor; [|exact IH].
  apply Forall_forall. intros u _. apply Hfar.
Qed.

Lemma negative_tolerance_splits_all_witness :
  group_words_into_lines [hello; world] (- (1))
  = map (fun w => [w])
        (sorted tuple_ltb (fun w => (get_top w, get_x0 w)) [hello; world]).
Proof.
  apply (negative_tolerance_splits_all [hello; world] (- (1))). reflexivity.
Defined.

(** ** How many clusters *)

Lemma length_concat_nonempty {A : Type} (cs : list (list A)) :
  Forall (fun c => c <> []) cs -> (List.length cs <= List.length (List.concat cs))%nat.
Proof.
  induction 1 as [|c cs Hc Hall IH]; simpl; [lia|].
  rewrite length_app. destruct c; [contradiction | simpl; lia].
Qed.

(** X7.  A page with words has at least one cluster and at most as many
    clusters as words. *)
Theorem cluster_count_bounds (words : list WordBox) (line_tol : Q) :
  words <> [] ->
  (1 <= List.length (group_words_into_lines words line_tol) <= List.length words)%nat.
Proof.
  intro Hne. split.
  - rewrite group_words_into_lines_eq.
    destruct (sorted tuple_ltb _ words) as [|w rest] eqn:E.
    + apply sorted_nil_inv in E. contradiction.
    + rewrite clusters_from_length. lia.
  - eapply Nat.le_trans; [apply length_concat_nonempty, group_nonempty|].
    assert (E : List.concat (group_words_into_lines words line_tol)
                = sorted tuple_ltb (fun w => (get_top w, get_x0 w)) words).
    { rewrite group_words_into_lines_eq.
      destruct (sorted tuple_ltb _ words) as [|w rest]; [reflexivity|].
      apply clusters_from_concat. }
    rewrite E, sorted_length. apply Nat.le_refl.
Qed.

Lemma cluster_count_bounds_witness :
  (1 <= List.length (group_words_into_lines [hello; world] 2) <= 2)%nat.
Proof.
  apply (cluster_count_bounds [hello; world] 2). discriminate.
Defined.

(** ** The order of the input *)

Section SortedOrder.
Context {A K : Type} (lt : K -> K -> bool) (key : A -> K).
Hypothesis lt_asym : forall a b, lt a b = true -> lt b a = false.
Hypothesis lt_negtrans :
  forall a b c, lt a b = false -> lt b c = false -> lt a c = false.

Lemma insert_by_comm (x y : A) (s : list A) :
  (lt (key x) (key y) = false -> lt (key y) (key x) = false -> x = y) ->
  insert_by lt key x (insert_by lt key y s)
  = insert_by lt key y (insert_by lt key x s).
Proof.
  intro Htie.
  assert (Hbase : forall t,
             insert_by lt key x t = x :: t -> insert_by lt key y t = y :: t ->
             insert_by lt key x (y :: t) = insert_by lt key y (x :: t)).
  { intros t Hx Hy. cbn [insert_by]. rewrite Hx, Hy.
    destruct (lt (key y) (key x)) eqn:Eyx; destruct (lt (key x) (key y)) eqn:Exy;
      try reflexivity.
    - rewrite (lt_asym _ _ Eyx) in Exy. discriminate.
    - rewrite (Htie eq_refl eq_refl). reflexivity. }
  induction s as [|z s IH].
  - apply Hbase; reflexivity.
  - cbn [insert_by].
    destruct (lt (key z) (key y)) eqn:Ezy; destruct (lt (key z) (key x)) eqn:Ezx.
    + cbn [insert_by]. rewrite Ezx, Ezy, IH. reflexivity.
    + cbn [insert_by]. rewrite Ezx.
      destruct (lt (key x) (key y)) eqn:Exy.
      * rewrite Ezy. reflexivity.
      * rewrite (lt_negtrans _ _ _ Ezx Exy) in Ezy. discriminate.
    + cbn [insert_by]. rewrite Ezy.
      destruct (lt (key y) (key x)) eqn:Eyx.
      * rewrite Ezx. reflexivity.
      * rewrite (lt_negtrans _ _ _ Ezy Eyx) in Ezx. discriminate.
    + apply Hbase; cbn [insert_by]; [rewrite Ezx | rewrite Ezy]; reflexivity.
Qed.

Lemma no_ties_perm (l l' : list A) :
  Permutation l l' -> no_ties lt key l -> no_ties lt key l'.
Proof.
  intros Hp H a b Ha Hb. apply H; eapply Permutation_in;
    try eassumption; apply Permutation_sym, Hp.
Qed.

(** Without ties the sorted list does not depend on the order of the
    input. *)
Lemma sorted_perm_eq (l l' : list A) :
  Permutation l l' -> no_ties lt key l -> sorted lt key l = sorted lt key l'.
Proof.
  induction 1 as [|x l l' Hp IH|x y l|l l' l'' Hp1 IH1 Hp2 IH2]; intro Hnt.
  - reflexivity.
  - cbn [sorted fold_right]. fold (sorted lt key l). fold (sorted lt key l').
    rewrite IH; [reflexivity|].
    intros a b Ha Hb. apply Hnt; right; assumption.
  - cbn [sorted fold_right]. fold (sorted lt key l).
    apply insert_by_comm. intros H1 H2.
    apply Hnt; [left; reflexivity | right; left; reflexivity | assumption..].
  - rewrite IH1 by exact Hnt. apply IH2. exact (no_ties_perm _ _ Hp1 Hnt).
Qed.
End SortedOrder.

(** X8.  Clustering does not depend on the order in which the words of the
    page are given, as long as no two different words have the same top and
    the same x0. *)
Theorem clustering_order_independent (words words' : list WordBox) (line_tol : Q) :
  Permutation words words' ->
  no_ties tuple_ltb (fun w => (get_top w, get_x0 w)) words ->
  group_words_into_lines words line_tol = group_words_into_lines words' line_tol.
Proof.
  intros Hp Hnt. rewrite !group_words_into_lines_eq.
  rewrite (sorted_perm_eq tuple_ltb _ tuple_ltb_asym tuple_ltb_negtrans _ _ Hp Hnt).
  reflexivity.
Qed.

Lemma two_words_no_ties {K : Type} (lt : K -> K -> bool) (key : WordBox -> K)
  (a b : WordBox) :
  lt (key a) (key b) = true ->
  lt (key b) (key a) = false ->
  no_ties lt key [a; b].
Proof.
  intros Hab Hba u v Hu Hv H1 H2.
  destruct Hu as [<-|[<-|[]]]; destruct Hv as [<-|[<-|[]]];
    try reflexivity; congruence.
Qed.

Lemma clustering_order_independent_witness :
  group_words_into_lines [hello; world] 2 = group_words_into_lines [world; hello] 2.
Proof.
  apply (clustering_order_independent [hello; world] [world; hello] 2).
  - apply perm_swap.
  - apply two_words_no_ties; reflexivity.
Defined.

(** X9.  The line built from a cluster does not depend on the order in which
    its words are given, as long as no two different words have the same
    x0. *)
Theorem line_order_independent (ws ws' : list WordBox) (su : Q) (ms : Z) :
  Permutation ws ws' ->
  no_ties Qltb get_x0 ws ->
  build_line_text ws su ms = build_line_text ws' su ms.
Proof.
  intros Hp Hnt. unfold build_line_text.
  rewrite (sorted_perm_eq Qltb get_x0 Qltb_asym Qltb_negtrans _ _ Hp Hnt).
  reflexivity.
Qed.

Lemma line_order_independent_witness :
  build_line_text [hello; world] 3 1 = build_line_text [world; hello] 3 1.
Proof.
  apply (line_order_independent [hello; world] [world; hello] 3 1).
  - apply perm_swap.
  - apply two_words_no_ties; reflexivity.
Defined.

(** ** The extent of a line *)

Lemma edge_after_eq (ws : list WordBox) :
  forall e, edge_after e ws = fold_left Qmax (map get_x1 ws) e.
Proof.
  unfold edge_after. induction ws as [|w ws IH]; intro e; cbn [fold_left map].
  - reflexivity.
  - rewrite IH, py_max_Qmax. reflexivity.
Qed.

Lemma sorted_x0_first (ws : list WordBox) (w : WordBox) (rest : list WordBox) :
  sorted Qltb get_x0 ws = w :: rest ->
  Forall (fun v => get_x0 w <= get_x0 v) ws.
Proof.
  intro E.
  pose proof (sorted_sorted Qltb get_x0 Qltb_asym Qltb_negtrans ws) as Hs.
  pose proof (sorted_perm Qltb get_x0 ws) as Hp.
  rewrite E in Hs, Hp. inversion Hs as [|? ? _ Hall]; subst.
  apply (Permutation_Forall Hp). constructor; [apply Qle_refl|].
  eapply Forall_impl; [|exact Hall]. intros v Hv. apply Qltb_ge. exact Hv.
Qed.

(** X10.  The x0 of a line is the least x0 of its words and its x1 the
    greatest x1 of its words; when every word has [x0 <= x1], so has the
    line. *)
Theorem line_extent (ws : list WordBox) (su : Q) (ms : Z) :
  ws <> [] ->
  exists r,
    build_line_text ws su ms = Some r
    /\ In (line_x0 r) (map get_x0 ws)
    /\ In (line_x1 r) (map get_x1 ws)
    /\ Forall (fun w => line_x0 r <= get_x0 w /\ get_x1 w <= line_x1 r) ws
    /\ (Forall (fun w => get_x0 w <= get_x1 w) ws -> line_x0 r <= line_x1 r).
Proof.
  intro Hne. destruct (sorted Qltb get_x0 ws) as [|w rest] eqn:E.
  { apply sorted_nil_inv in E. contradiction. }
  eexists. split; [apply (build_line_text_sorted ws su ms w rest E)|].
  cbn [line_x0 line_x1].
  pose proof (sorted_perm Qltb get_x0 ws) as Hp. rewrite E in Hp.
  pose proof (sorted_x0_first ws w rest E) as Hmin.
  rewrite edge_after_eq.
  destruct (fold_Qmax_is_max (map get_x1 rest) (get_x1 w)) as [Hin Hmax].
  rewrite <- map_cons in Hin, Hmax. rewrite Forall_map in Hmax.
  apply (Permutation_Forall Hp) in Hmax.
  assert (Hw : In w ws) by (apply (Permutation_in _ Hp); left; reflexivity).
  repeat split.
  - apply in_map, Hw.
  - apply (Permutation_in _ (Permutation_map get_x1 Hp)), Hin.
  - rewrite Forall_forall in *. intros v Hv. split; [apply Hmin | apply Hmax]; exact Hv.
  - intro Hbox. rewrite Forall_forall in *.
    exact (Qle_trans _ _ _ (Hbox w Hw) (Hmax w Hw)).
Qed.

Lemma line_extent_witness :
  exists r,
    build_line_text [world; hello] 3 1 = Some r
    /\ In (line_x0 r) (map get_x0 [world; hello])
    /\ In (line_x1 r) (map get_x1 [world; hello])
    /\ Forall (fun w => line_x0 r <= get_x0 w /\ get_x1 w <= line_x1 r) [world; hello]
    /\ (Forall (fun w => get_x0 w <= get_x1 w) [world; hello] -> line_x0 r <= line_x1 r).
Proof.
  apply (line_extent [world; hello] 3 1). discriminate.
Defined.

(** ** The top and the font size of a line come from its words *)

Lemma middle_in (l : list Q) : l <> [] -> In (middle l) l.
Proof.
  intro H. unfold middle. apply nth_In, half_lt.
  destruct l; [contradiction | simpl; lia].
Qed.

Lemma middle_sorted_in (l : list Q) :
  l <> [] -> In (middle (sorted Qltb (fun q => q) l)) l.
Proof.
  intro H. apply (Permutation_in _ (sorted_perm Qltb (fun q => q) l)).
  apply middle_in. intro E. apply sorted_nil_inv in E. contradiction.
Qed.

Lemma py_max_ge_l (a b : Q) : a <= py_max a b.
Proof.
  unfold py_max. destruct (Qltb a b) eqn:E; [|apply Qle_refl].
  apply Qltb_lt in E. lra.
Qed.

(** The top of the line is the top of one of its words; the font size is one
    of the collected sizes if there are any, and else one of the floored
    heights. *)
Lemma line_top_font_in (ws : list WordBox) (su : Q) (ms : Z) :
  ws <> [] ->
  exists r,
    build_line_text ws su ms = Some r
    /\ In (line_top r) (map get_top ws)
    /\ (collect_sizes ws <> [] -> In (line_font_size r) (collect_sizes ws))
    /\ (collect_sizes ws = [] -> In (line_font_size r) (map bbox_height ws)).
Proof.
  intro Hne. destruct (sorted Qltb get_x0 ws) as [|w rest] eqn:E.
  { apply sorted_nil_inv in E. contradiction. }
  eexists. split; [apply (build_line_text_sorted ws su ms w rest E)|].
  cbn [line_top line_font_size].
  pose proof (sorted_perm Qltb get_x0 ws) as Hp. rewrite E in Hp.
  pose proof (collect_sizes_perm _ _ Hp) as Hps.
  split; [|split].
  - apply (Permutation_in _ (Permutation_map get_top Hp)).
    apply middle_sorted_in. discriminate.
  - intro Hs. destruct (collect_sizes (w :: rest)) as [|q qs] eqn:Eq.
    + apply Permutation_nil in Hps. contradiction.
    + apply (Permutation_in _ Hps). apply middle_sorted_in. discriminate.
  - intro Hs. rewrite Hs in Hps. apply Permutation_sym, Permutation_nil in Hps.
    rewrite Hps.
    apply (Permutation_in _ (Permutation_map bbox_height Hp)).
    apply middle_sorted_in. discriminate.
Qed.

(** X11.  The top of a line is the top of one of its words.  Its font size
    is one of the sizes of its words when a size could be read from any of
    them; otherwise it is the height of one of its words raised to 6 if
    smaller, so never below 6. *)
Theorem line_top_and_font_from_words (ws : list WordBox) (su : Q) (ms : Z) :
  ws <> [] ->
  exists r,
    build_line_text ws su ms = Some r
    /\ (exists w, In w ws /\ line_top r = get_top w)
    /\ (collect_sizes ws <> [] ->
        exists w, In w ws /\ size w = Some (Num (line_font_size r)))
    /\ (collect_sizes ws = [] ->
        6 <= line_font_size r
        /\ exists w, In w ws
                     /\ line_font_size r = py_max 6 (get_bottom w - get_top w)).
Proof.
  intro Hne. destruct (line_top_font_in ws su ms Hne) as (r & E & Ht & Hs & Hh).
  exists r. split; [exact E|]. split; [|split].
  - apply in_map_iff in Ht. destruct Ht as (w & Ew & Hw). exists w. auto.
  - intro Hc. specialize (Hs Hc). clear - Hs.
    induction ws as [|w ws IH]; [contradiction|].
    cbn [collect_sizes] in Hs. destruct (size w) as [[q|]|] eqn:Es.
    + destruct Hs as [<-|Hs].
      * exists w. split; [left; reflexivity | exact Es].
      * destruct (IH Hs) as (v & Hv & Ev). exists v. split; [right|]; assumption.
    + destruct (IH Hs) as (v & Hv & Ev). exists v. split; [right|]; assumption.
    + destruct (IH Hs) as (v & Hv & Ev). exists v. split; [right|]; assumption.
  - intro Hc. specialize (Hh Hc). apply in_map_iff in Hh.
    destruct Hh as (w & Ew & Hw). split.
    + rewrite <- Ew. apply py_max_ge_l.
    + exists w. split; [exact Hw | symmetry; exact Ew].
Qed.

Lemma line_top_and_font_from_words_witness :
  exists r,
    build_line_text [small_word; large_word] 3 1 = Some r
    /\ (exists w, In w [small_word; large_word] /\ line_top r = get_top w).
Proof.
  destruct (line_top_and_font_from_words [small_word; large_word] 3 1)
    as (r & E & Ht & _).
  - discriminate.
  - exists r. split; assumption.
Defined.

(** ** Lines that are kept *)

Lemma has_visible_lstrip (s : string) : has_visible (lstrip s) = has_visible s.
Proof.
  induction s as [|c s IH]; simpl; [reflexivity|].
  destruct (is_space c) eqn:E; simpl; [exact IH | rewrite E; reflexivity].
Qed.

Lemma truthy_rstrip (s : string) : truthy (rstrip s) = has_visible s.
Proof.
  induction s as [|c s IH]; simpl; [reflexivity|].
  destruct (rstrip s) as [|d t]; simpl in IH; rewrite <- IH.
  - destruct (is_space c); reflexivity.
  - rewrite orb_true_r. reflexivity.
Qed.

(** The stripped string is not empty exactly when the string has a
    character that is not white space. *)
Lemma truthy_strip (s : string) : truthy (strip s) = has_visible s.
Proof.
  unfold strip. rewrite truthy_rstrip. apply has_visible_lstrip.
Qed.

Lemma has_visible_app (a b : string) :
  has_visible (a ++ b) = has_visible a || has_visible b.
Proof.
  induction a as [|c a IH]; simpl; [reflexivity|].
  rewrite IH, orb_assoc. reflexivity.
Qed.

Lemma has_visible_only_spaces (s : string) : only_spaces s -> has_visible s = false.
Proof.
  induction s as [|c s IH]; simpl; [reflexivity|].
  intros [-> H]. rewrite (IH H). reflexivity.
Qed.

Lemma has_visible_text_from (su : Q) (ms : Z) (ws : list WordBox) :
  forall prev,
    has_visible (text_from su ms prev ws)
    = existsb (fun w => has_visible (get_text w)) ws.
Proof.
  induction ws as [|w ws IH]; intro prev; cbn [text_from existsb]; [reflexivity|].
  rewrite !has_visible_app, IH.
  rewrite (has_visible_only_spaces _ (only_spaces_separator su ms _)).
  reflexivity.
Qed.

(** The text of a line has a visible character exactly when the text of one
    of its words has. *)
Lemma line_visible (ws : list WordBox) (su : Q) (ms : Z) :
  ws <> [] ->
  exists r,
    build_line_text ws su ms = Some r
    /\ (truthy (strip (line_text r)) = true
        <-> exists w, In w ws /\ has_visible (get_text w) = true).
Proof.
  intro Hne. destruct (sorted Qltb get_x0 ws) as [|w rest] eqn:E.
  { apply sorted_nil_inv in E. contradiction. }
  eexists. split; [apply (build_line_text_sorted ws su ms w rest E)|].
  cbn [line_text]. rewrite truthy_strip, has_visible_app, has_visible_text_from.
  change (has_visible (get_text w)
          || existsb (fun w => has_visible (get_text w)) rest)
    with (existsb (fun w => has_visible (get_text w)) (w :: rest)).
  rewrite existsb_exists.
  pose proof (sorted_perm Qltb get_x0 ws) as Hp. rewrite E in Hp.
  split; intros (v & Hv & Hvis); exists v; split; try exact Hvis.
  - exact (Permutation_in _ Hp Hv).
  - exact (Permutation_in _ (Permutation_sym Hp) Hv).
Qed.

(** X13.  A cluster is kept in the output of its page exactly when the text
    of one of its words has a character that is not white space: then the
    line is added in front of the lines of the clusters after it, and
    otherwise nothing is added. *)
Theorem line_kept_iff_visible (lw : list WordBox) (rest : list (list WordBox))
  (su : Q) (ms : Z) :
  lw <> [] ->
  exists r,
    build_line_text lw su ms = Some r
    /\ ((exists w, In w lw /\ has_visible (get_text w) = true) ->
        forall out, page_out rest su ms = Some out ->
          page_out (lw :: rest) su ms
          = Some ((line_text r, line_x0 r, line_top r, line_font_size r) :: out))
    /\ ((forall w, In w lw -> has_visible (get_text w) = false) ->
        page_out (lw :: rest) su ms = page_out rest su ms).
Proof.
  intro Hne. destruct (line_visible lw su ms Hne) as (r & E & Hiff).
  exists r. split; [exact E|]. split.
  - intros Hvis out Eo. apply Hiff in Hvis.
    cbn [page_out]. rewrite E, Eo. cbn [bind]. rewrite Hvis. reflexivity.
  - intro Hblank. cbn [page_out]. rewrite E. cbn [bind].
    destruct (truthy (strip (line_text r))) eqn:T.
    + destruct (proj1 Hiff eq_refl) as (w & Hw & Hv).
      rewrite (Hblank w Hw) in Hv. discriminate.
    + destruct (page_out rest su ms); reflexivity.
Qed.

Lemma line_kept_iff_visible_witness :
  exists r,
    build_line_text [hello; blank_word] 3 1 = Some r
    /\ page_out [[hello; blank_word]] 3 1
       = Some [(line_text r, line_x0 r, line_top r, line_font_size r)].
Proof.
  destruct (line_kept_iff_visible [hello; blank_word] [] 3 1) as (r & E & Hk & _).
  - discriminate.
  - exists r. split; [exact E|]. apply Hk; [|reflexivity].
    exists hello. split; [left; reflexivity | reflexivity].
Defined.

(** ** Nothing but spaces is added *)

Lemma drop_spaces_app (a b : string) :
  drop_spaces (a ++ b) = (drop_spaces a ++ drop_spaces b)%string.
Proof.
  induction a as [|c a IH]; simpl; [reflexivity|].
  rewrite IH. destruct (Ascii.eqb c " "); reflexivity.
Qed.

Lemma drop_spaces_only_spaces (s : string) :
  only_spaces s -> drop_spaces s = EmptyString.
Proof.
  induction s as [|c s IH]; simpl; [reflexivity|].
  intros [-> H]. simpl. apply IH, H.
Qed.

Lemma drop_spaces_text_from (su : Q) (ms : Z) (ws : list WordBox) :
  forall prev,
    drop_spaces (text_from su ms prev ws)
    = drop_spaces (String.concat EmptyString (map get_text ws)).
Proof.
  induction ws as [|w ws IH]; intro prev; cbn [text_from map]; [reflexivity|].
  rewrite join_cons, !drop_spaces_app, IH.
  rewrite (drop_spaces_only_spaces _ (only_spaces_separator su ms _)).
  reflexivity.
Qed.

(** X14.  Apart from spaces, the text of a line is the texts of its words
    one after the other in the order of their x0: no other character is
    added and none is lost. *)
Theorem line_text_letters (ws : list WordBox) (su : Q) (ms : Z) :
  ws <> [] ->
  exists r,
    build_line_text ws su ms = Some r
    /\ drop_spaces (line_text r)
       = drop_spaces
           (String.concat EmptyString (map get_text (sorted Qltb get_x0 ws))).
Proof.
  intro Hne. destruct (sorted Qltb get_x0 ws) as [|w rest] eqn:E.
  { apply sorted_nil_inv in E. contradiction. }
  eexists. split; [apply (build_line_text_sorted ws su ms w rest E)|].
  cbn [line_text map]. rewrite join_cons, !drop_spaces_app, drop_spaces_text_from.
  reflexivity.
Qed.

Lemma line_text_letters_witness :
  exists r,
    build_line_text [world; hello] 3 1 = Some r
    /\ drop_spaces (line_text r)
       = drop_spaces
           (String.concat EmptyString
              (map get_text (sorted Qltb get_x0 [world; hello]))).
Proof.
  apply (line_text_letters [world; hello] 3 1). discriminate.
Defined.

(** ** More gap, more spaces; a larger unit, fewer spaces *)

Lemma py_round_bounds (q : Q) : (Qfloor q <= py_round q <= Qfloor q + 1)%Z.
Proof.
  unfold py_round. destruct (_ ?= _); [destruct (Z.even _)| |]; lia.
Qed.

Lemma py_round_mono (p q : Q) : p <= q -> (py_round p <= py_round q)%Z.
Proof.
  intro H. pose proof (Qfloor_resp_le _ _ H) as Hf.
  destruct (Z.eq_dec (Qfloor p) (Qfloor q)) as [E|E].
  - unfold py_round. rewrite E.
    destruct (p - inject_Z (Qfloor q) ?= 1 # 2) eqn:Cp;
      destruct (q - inject_Z (Qfloor q) ?= 1 # 2) eqn:Cq;
      try (destruct (Z.even (Qfloor q))); try lia; exfalso;
      repeat match goal with
        | C : (_ ?= _) = Eq |- _ => rewrite <- Qeq_alt in C
        | C : (_ ?= _) = Lt |- _ => rewrite <- Qlt_alt in C
        | C : (_ ?= _) = Gt |- _ => rewrite <- Qgt_alt in C
        end; lra.
  - pose proof (py_round_bounds p). pose proof (py_round_bounds q). lia.
Qed.

Lemma length_spaces (n : Z) : String.length (spaces n) = Z.to_nat n.
Proof.
  unfold spaces. induction (Z.to_nat n) as [|k IH]; simpl; [|rewrite IH]; reflexivity.
Qed.

Lemma separator_length (su : Q) (ms : Z) (gap : Q) :
  String.length (separator su ms gap) = Z.to_nat (spec_spaces su ms gap).
Proof. rewrite separator_spec. apply length_spaces. Qed.

Lemma py_max_mono_r (a b c : Q) : b <= c -> py_max a b <= py_max a c.
Proof.
  intro H. rewrite !py_max_Qmax. apply Q.max_le_compat_l, H.
Qed.

Lemma Qdiv_le_num (a b c : Q) : 0 < c -> a <= b -> a / c <= b / c.
Proof.
  intros Hc H. apply Qle_shift_div_l; [exact Hc|].
  unfold Qdiv. rewrite <- Qmult_assoc, (Qmult_comm (/ c)), Qmult_inv_r by lra. lra.
Qed.

Lemma Qdiv_le_den (a c d : Q) : 0 <= a -> 0 < c -> c <= d -> a / d <= a / c.
Proof.
  intros Ha Hc H.
  assert (Hi : / d <= / c).
  { apply Qle_shift_inv_l; [exact Hc|].
    rewrite Qmult_comm. apply Qle_shift_div_r; lra. }
  assert (Hd : 0 < / d) by (apply Qinv_lt_0_compat; lra).
  unfold Qdiv. set (i := / d) in *. set (j := / c) in *. nra.
Qed.

(** X15.  With [min_spaces] at least 1, a word that stands farther from the
    running right edge never gets fewer spaces. *)
Theorem separator_monotone (su : Q) (ms : Z) (g1 g2 : Q) :
  (1 <= ms)%Z -> g1 <= g2 ->
  (String.length (separator su ms g1) <= String.length (separator su ms g2))%nat.
Proof.
  intros Hms Hg. rewrite !separator_length. apply Z2Nat.inj_le.
  - apply spec_spaces_cases.
  - apply spec_spaces_cases.
  - unfold spec_spaces.
    destruct (Qlt_le_dec 0 g1) as [P1|N1]; destruct (Qlt_le_dec 0 g2) as [P2|N2].
    + apply Z.max_le_compat_l, py_round_mono, Qdiv_le_num; [|exact Hg].
      rewrite <- py_max_Qmax. apply py_max_half_pos.
    + lra.
    + destruct (Qlt_le_dec (- su * (3 # 10)) g1); lia.
    + destruct (Qlt_le_dec (- su * (3 # 10)) g1);
        destruct (Qlt_le_dec (- su * (3 # 10)) g2); try lia. lra.
Qed.

Lemma separator_monotone_witness :
  (String.length (separator 3 1 (- (1 # 2))) <= String.length (separator 3 1 1))%nat.
Proof.
  apply (separator_monotone 3 1 (- (1 # 2)) 1); [lia | discriminate].
Defined.

(** X16.  A larger [space_unit_pts] never gives more spaces before a word
    at a positive gap; before a word at a gap that is not positive it never
    gives fewer. *)
Theorem space_unit_effect (su1 su2 : Q) (ms : Z) (gap : Q) :
  su1 <= su2 ->
  (0 < gap ->
   (String.length (separator su2 ms gap) <= String.length (separator su1 ms gap))%nat)
  /\ (gap <= 0 ->
      (String.length (separator su1 ms gap) <= String.length (separator su2 ms gap))%nat).
Proof.
  intro Hsu. rewrite !separator_length. unfold spec_spaces. split; intro Hg.
  - destruct (Qlt_le_dec 0 gap) as [P|N]; [|lra].
    apply Z2Nat.inj_le.
    + pose proof (py_round_nonneg _ (Qlt_le_weak _ _ (gap_ratio_pos su2 gap P))) as Hr.
      rewrite py_max_Qmax in Hr. lia.
    + pose proof (py_round_nonneg _ (Qlt_le_weak _ _ (gap_ratio_pos su1 gap P))) as Hr.
      rewrite py_max_Qmax in Hr. lia.
    + apply Z.max_le_compat_l, py_round_mono. rewrite <- !py_max_Qmax.
      apply Qdiv_le_den; [lra | apply py_max_half_pos | apply py_max_mono_r, Hsu].
  - destruct (Qlt_le_dec 0 gap) as [P|N]; [lra|].
    destruct (Qlt_le_dec (- su1 * (3 # 10)) gap);
      destruct (Qlt_le_dec (- su2 * (3 # 10)) gap); simpl; try lia. lra.
Qed.

Lemma space_unit_effect_witness :
  (String.length (separator 6 1 20) <= String.length (separator 3 1 20))%nat.
Proof.
  apply (space_unit_effect 3 6 1 20); [discriminate | reflexivity].
Defined.

(** ** The lines of a page *)

Lemma StronglySorted_app_inv {A : Type} (R : A -> A -> Prop) (a b : list A) :
  StronglySorted R (a ++ b) ->
  StronglySorted R b /\ Forall (fun x => Forall (R x) b) a.
Proof.
  induction a as [|x a IH]; cbn [app]; intro H.
  - split; [exact H | constructor].
  - inversion H as [|? ? Hs Hall]; subst. destruct (IH Hs) as [Hb Ha].
    split; [exact Hb|]. constructor; [|exact Ha].
    apply Forall_app in Hall. tauto.
Qed.

Lemma page_out_order (su : Q) (ms : Z) (cs : list (list WordBox)) :
  Forall (fun c => c <> []) cs ->
  StronglySorted Qle (map get_top (List.concat cs)) ->
  exists out,
    page_out cs su ms = Some out
    /\ StronglySorted Qle (map out_top out)
    /\ Forall (fun e => In (out_top e) (map get_top (List.concat cs))) out.
Proof.
  induction 1 as [|c cs Hc Hall IH]; intro Hs.
  - exists []. repeat split; constructor.
  - cbn [List.concat] in *. rewrite map_app in Hs.
    destruct (StronglySorted_app_inv _ _ _ Hs) as [Hs' Hcross].
    destruct (IH Hs') as (out & Eo & Hso & Hin).
    destruct (line_top_font_in c su ms Hc) as (r & Er & Ht & _).
    cbn [page_out]. rewrite Er, Eo. cbn [bind].
    assert (Hin' : Forall (fun e => In (out_top e)
                                      (map get_top (c ++ List.concat cs))) out).
    { eapply Forall_impl; [|exact Hin]. intros e He.
      rewrite map_app. apply in_or_app. right. exact He. }
    destruct (truthy (strip (line_text r))).
    + eexists. split; [reflexivity|]. split.
      * cbn [map]. constructor; [exact Hso|].
        unfold out_top at 1. cbn [fst snd].
        rewrite Forall_forall in Hcross. specialize (Hcross _ Ht).
        rewrite Forall_forall in Hcross. apply Forall_map, Forall_forall.
        intros e He. apply Hcross. rewrite Forall_forall in Hin. apply Hin, He.
      * constructor; [|exact Hin'].
        unfold out_top. cbn [fst snd]. rewrite map_app. apply in_or_app. left. exact Ht.
    + exists out. repeat split; assumption.
Qed.

Lemma group_concat (words : list WordBox) (tol : Q) :
  List.concat (group_words_into_lines words tol)
  = sorted tuple_ltb (fun w => (get_top w, get_x0 w)) words.
Proof.
  rewrite group_words_into_lines_eq.
  destruct (sorted tuple_ltb _ words) as [|w rest]; [reflexivity|].
  apply clusters_from_concat.
Qed.

(** X17.  The lines of a page come out from the top of the page downwards:
    their tops never decrease. *)
Theorem page_reading_order (words : list WordBox) (line_tol su : Q) (ms : Z) :
  exists out,
    page_lines words line_tol su ms = Some out
    /\ StronglySorted Qle (map out_top out).
Proof.
  destruct (page_out_order su ms (group_words_into_lines words line_tol))
    as (out & E & Hs & _).
  - apply group_nonempty.
  - rewrite group_concat. apply sorted_tops_ascend.
  - exists out. split; assumption.
Qed.

Lemma page_out_count (su : Q) (ms : Z) (cs : list (list WordBox)) :
  Forall (fun c => c <> []) cs ->
  exists out,
    page_out cs su ms = Some out
    /\ (List.length out <= List.length cs)%nat
    /\ (Forall (fun w => has_visible (get_text w) = true) (List.concat cs) ->
        List.length out = List.length cs).
Proof.
  induction 1 as [|c cs Hc Hall IH].
  - exists []. repeat split; reflexivity.
  - destruct IH as (out & Eo & Hle & Heq).
    destruct (line_visible c su ms Hc) as (r & Er & Hiff).
    cbn [page_out]. rewrite Er, Eo. cbn [bind].
    destruct (truthy (strip (line_text r))) eqn:T.
    + eexists. split; [reflexivity|]. cbn [List.length]. split; [lia|].
      intro Hv. cbn [List.concat] in Hv. apply Forall_app in Hv.
      rewrite (Heq (proj2 Hv)). reflexivity.
    + exists out. split; [reflexivity|]. cbn [List.length]. split; [lia|].
      intro Hv. exfalso. cbn [List.concat] in Hv. apply Forall_app in Hv.
      destruct Hv as [Hv _]. destruct c as [|w c]; [contradiction|].
      inversion Hv as [|? ? Hw _]; subst.
      assert (Ht : true = true) by reflexivity.
      destruct Hiff as [_ Hiff].
      assert (F : false = true).
      { apply Hiff. exists w. split; [left; reflexivity | exact Hw]. }
      discriminate.
Qed.

Lemma group_length_le (words : list WordBox) (tol : Q) :
  (List.length (group_words_into_lines words tol) <= List.length words)%nat.
Proof.
  eapply Nat.le_trans; [apply length_concat_nonempty, group_nonempty|].
  rewrite group_concat, sorted_length. apply Nat.le_refl.
Qed.

(** X18.  A page gives at most one line for each cluster, so at most as
    many lines as it has words; and exactly one line for each cluster when
    the text of every word has a character that is not white space. *)
Theorem page_line_count (words : list WordBox) (line_tol su : Q) (ms : Z) :
  exists out,
    page_lines words line_tol su ms = Some out
    /\ (List.length out <= List.length (group_words_into_lines words line_tol)
        <= List.length words)%nat
    /\ (Forall (fun w => has_visible (get_text w) = true) words ->
        List.length out = List.length (group_words_into_lines words line_tol)).
Proof.
  destruct (page_out_count su ms (group_words_into_lines words line_tol)
              (group_nonempty words line_tol)) as (out & E & Hle & Heq).
  exists out. split; [exact E|]. split.
  - split; [exact Hle | apply group_length_le].
  - intro Hv. apply Heq. rewrite group_concat.
    apply (Permutation_Forall (Permutation_sym (sorted_perm _ _ words))). exact Hv.
Qed.

Lemma page_line_count_witness :
  exists out,
    page_lines [hello; world_below] 2 3 1 = Some out
    /\ List.length out = List.length (group_words_into_lines [hello; world_below] 2).
Proof.
  destruct (page_line_count [hello; world_below] 2 3 1) as (out & E & _ & Heq).
  exists out. split; [exact E|]. apply Heq. repeat constructor.
Defined.

(** X19.  Whenever [extract_lines_with_positions] returns, it returns one
    list of lines for each page, in the order of the pages, and the list of
    a page is what the function returns for a document made of that page
    alone: no page has a bearing on the lines of another. *)
Theorem extract_page_by_page (pages : list (list WordBox)) (line_tol su : Q) (ms : Z)
  (pages_lines : list (list (string * Q * Q * Q))) :
  extract_lines_with_positions pages line_tol su ms = Some pages_lines ->
  Forall2 (fun words out =>
             extract_lines_with_positions [words] line_tol su ms = Some [out])
          pages pages_lines.
Proof.
  revert pages_lines. induction pages as [|words pages IH]; intros pages_lines H.
  - injection H as <-. constructor.
  - cbn [extract_lines_with_positions] in H.
    destruct (page_lines words line_tol su ms) as [out|] eqn:Eo; [|discriminate].
    destruct (extract_lines_with_positions pages line_tol su ms) as [rest|];
      [|discriminate].
    cbn [bind] in H. injection H as <-. constructor; [|apply IH; reflexivity].
    cbn [extract_lines_with_positions]. rewrite Eo. reflexivity.
Qed.

Lemma extract_page_by_page_witness :
  Forall2 (fun words out =>
             extract_lines_with_positions [words] 2 3 1 = Some [out])
          [[hello; world]; []]
          [[(("Hello" ++ spaces_nat 7 ++ "World")%string, 100, 50, 10)]; []].
Proof.
  apply (extract_page_by_page [[hello; world]; []] 2 3 1). vm_compute. reflexivity.
Defined.

(** ** The renderers *)

Lemma lines_of_page_cons (o : list (string * Q * Q * Q)) lpp (i : nat) :
  lines_of_page (o :: lpp) (S i) = lines_of_page lpp i.
Proof. reflexivity. Qed.

(** The guarded subscript finds the lines of the page of the same index, and
    nothing for a page that pdfplumber did not give. *)
Lemma lines_of_page_spec (pdf : list (list WordBox)) lpp (tol su : Q) (ms : Z) :
  Forall2 (fun words out => page_lines words tol su ms = Some out) pdf lpp ->
  forall i,
    match nth_error pdf i with
    | Some words => page_lines words tol su ms = Some (lines_of_page lpp i)
    | None => lines_of_page lpp i = []
    end.
Proof.
  induction 1 as [|words o pdf lpp Ho Hall IH]; intro i.
  - destruct i; reflexivity.
  - destruct i as [|i]; [exact Ho|].
    rewrite lines_of_page_cons. cbn [nth_error]. apply IH.
Qed.

Lemma extract_total (pdf : list (list WordBox)) (tol su : Q) (ms : Z) :
  exists lpp,
    extract_lines_with_positions pdf tol su ms = Some lpp
    /\ Forall2 (fun words out => page_lines words tol su ms = Some out) pdf lpp.
Proof.
  induction pdf as [|words pdf IH].
  - exists []. split; [reflexivity | constructor].
  - destruct IH as (rest & E & Hall).
    destruct (page_out_count su ms (group_words_into_lines words tol)
                (group_nonempty words tol)) as (out & Eo & _).
    exists (out :: rest). cbn [extract_lines_with_positions].
    unfold page_lines at 1. rewrite Eo, E. cbn [bind].
    split; [reflexivity|]. constructor; [exact Eo | exact Hall].
Qed.

Lemma side_by_side_pages_length (src : list (Q * Q)) lpp :
  forall k, List.length (side_by_side_pages k src lpp) = List.length src.
Proof.
  induction src as [|[w h] src IH]; intro k; cbn [side_by_side_pages List.length].
  - reflexivity.
  - rewrite IH. reflexivity.
Qed.

Lemma side_by_side_pages_nth (src : list (Q * Q)) lpp :
  forall k i w h,
    nth_error src i = Some (w, h) ->
    exists texts,
      nth_error (side_by_side_pages k src lpp) i
      = Some (mkPage (2 * w) h (show_pdf_page (0, 0, w, h) (k + i) :: texts))
      /\ Forall2 (draws_black w) texts (lines_of_page lpp (k + i)).
Proof.
  induction src as [|[w0 h0] src IH]; intros k i w h Hi.
  - destruct i; discriminate.
  - destruct i as [|i]; cbn [nth_error] in Hi.
    + injection Hi as -> ->. rewrite Nat.add_0_r.
      cbn [side_by_side_pages nth_error]. eexists. split; [reflexivity|].
      induction (lines_of_page lpp k) as [|[[[t x] y] f] l IHl]; cbn [map];
        constructor; [reflexivity | exact IHl].
    + cbn [side_by_side_pages nth_error].
      replace (k + S i)%nat with (S k + i)%nat by lia. apply IH, Hi.
Qed.

Lemma overlay_white_pages_nth (doc : list (Q * Q)) lpp :
  forall k i w h,
    nth_error doc i = Some (w, h) ->
    exists texts,
      nth_error (overlay_white_pages k doc lpp) i = Some (mkPage w h texts)
      /\ Forall2 draws_white texts (lines_of_page lpp (k + i)).
Proof.
  induction doc as [|[w0 h0] doc IH]; intros k i w h Hi.
  - destruct i; discriminate.
  - destruct i as [|i]; cbn [nth_error] in Hi.
    + injection Hi as -> ->. rewrite Nat.add_0_r.
      cbn [overlay_white_pages nth_error]. eexists. split; [reflexivity|].
      induction (lines_of_page lpp k) as [|[[[t x] y] f] l IHl]; cbn [map];
        constructor; [reflexivity | exact IHl].
    + cbn [overlay_white_pages nth_error].
      replace (k + S i)%nat with (S k + i)%nat by lia. apply IH, Hi.
Qed.

(** What [make_side_by_side] puts on the page of index [i]. *)
Lemma side_by_side_page (src : list (Q * Q)) (pdf : list (list WordBox))
  (tol su : Q) (ms : Z) :
  exists out,
    make_side_by_side src pdf tol su ms = Some out
    /\ List.length out = List.length src
    /\ forall i w h,
         nth_error src i = Some (w, h) ->
         exists texts lines,
           nth_error out i
           = Some (mkPage (2 * w) h (show_pdf_page (0, 0, w, h) i :: texts))
           /\ Forall2 (draws_black w) texts lines
           /\ match nth_error pdf i with
              | Some words => page_lines words tol su ms = Some lines
              | None => lines = []
              end.
Proof.
  destruct (extract_total pdf tol su ms) as (lpp & E & Hall).
  unfold make_side_by_side. rewrite E. cbn [bind]. eexists. split; [reflexivity|].
  split; [apply side_by_side_pages_length|].
  intros i w h Hi.
  destruct (side_by_side_pages_nth src lpp 0 i w h Hi) as (texts & En & Hd).
  exists texts, (lines_of_page lpp i). split; [exact En|]. split; [exact Hd|].
  apply (lines_of_page_spec pdf lpp tol su ms Hall).
Qed.

(** X20.  Whenever [make_side_by_side] returns, it has made one page for
    each page of the source, twice as wide and as high as it.  On the page
    of index [i] it first shows the source page [i] in the left half, and
    then draws one text for each line of the page [i] that pdfplumber gave,
    in order: the text of the line in black Helvetica of its font size at
    [(w + x0, top + 0.85 * font_size)]; it draws no text when pdfplumber
    gave no such page. *)
Theorem side_by_side_layout (src : list (Q * Q)) (pdf : list (list WordBox))
  (line_tol su : Q) (ms : Z) (out : list out_page) :
  make_side_by_side src pdf line_tol su ms = Some out ->
  List.length out = List.length src
  /\ forall i w h,
       nth_error src i = Some (w, h) ->
       exists texts lines,
         nth_error out i
         = Some (mkPage (2 * w) h (show_pdf_page (0, 0, w, h) i :: texts))
         /\ Forall2 (draws_black w) texts lines
         /\ match nth_error pdf i with
            | Some words => page_lines words line_tol su ms = Some lines
            | None => lines = []
            end.
Proof.
  intro H. destruct (side_by_side_page src pdf line_tol su ms) as (out' & E & Hlen & Hpg).
  rewrite H in E. injection E as <-. split; assumption.
Qed.

Lemma side_by_side_layout_witness :
  exists texts lines,
    nth_error
      (match make_side_by_side [(612, 792)] [[hello; world]] 2 3 1 with
       | Some out => out
       | None => []
       end) 0
    = Some (mkPage (2 * 612) 792 (show_pdf_page (0, 0, 612, 792) 0 :: texts))
    /\ Forall2 (draws_black 612) texts lines
    /\ page_lines [hello; world] 2 3 1 = Some lines.
Proof.
  destruct (make_side_by_side [(612, 792)] [[hello; world]] 2 3 1) as [out|] eqn:E;
    [|discriminate E].
  destruct (side_by_side_layout [(612, 792)] [[hello; world]] 2 3 1 out E)
    as (_ & Hpg).
  destruct (Hpg 0%nat 612 792 eq_refl) as (texts & lines & En & Hd & Hl).
  exists texts, lines. split; [exact En|]. split; [exact Hd | exact Hl].
Defined.

Lemma page_out_entries (cs : list (list WordBox)) (su : Q) (ms : Z) :
  forall out,
    page_out cs su ms = Some out ->
    Forall (fun e =>
              exists c r,
                In c cs /\ build_line_text c su ms = Some r
                /\ e = (line_text r, line_x0 r, line_top r, line_font_size r)
                /\ truthy (strip (line_text r)) = true) out.
Proof.
  induction cs as [|c cs IH]; intros out H; cbn [page_out] in H.
  - injection H as <-. constructor.
  - destruct (build_line_text c su ms) as [r|] eqn:Er; [|discriminate].
    destruct (page_out cs su ms) as [out'|] eqn:Eo; [|discriminate].
    cbn [bind] in H. specialize (IH out' eq_refl).
    assert (IH' : Forall (fun e =>
              exists c0 r0,
                In c0 (c :: cs) /\ build_line_text c0 su ms = Some r0
                /\ e = (line_text r0, line_x0 r0, line_top r0, line_font_size r0)
                /\ truthy (strip (line_text r0)) = true) out').
    { eapply Forall_impl; [|exact IH]. intros e (c0 & r0 & Hc & Hr).
      exists c0, r0. split; [right; exact Hc | exact Hr]. }
    destruct (truthy (strip (line_text r))) eqn:T; injection H as <-.
    + constructor; [|exact IH'].
      exists c, r. repeat split; try assumption. left. reflexivity.
    + exact IH'.
Qed.

Lemma line_x0_word (c : list WordBox) (su : Q) (ms : Z) (r : LineText) :
  build_line_text c su ms = Some r -> exists w, In w c /\ line_x0 r = get_x0 w.
Proof.
  intro H. destruct (sorted Qltb get_x0 c) as [|w rest] eqn:E.
  - apply sorted_nil_inv in E. subst c. discriminate.
  - rewrite (build_line_text_sorted c su ms w rest E) in H. injection H as <-.
    exists w. split; [|reflexivity].
    apply (Permutation_in _ (sorted_perm Qltb get_x0 c)). rewrite E. left. reflexivity.
Qed.

(** Every line of a page has a visible text and starts at the x0 of a word of
    the page. *)
Lemma page_lines_entries (words : list WordBox) (tol su : Q) (ms : Z) out :
  page_lines words tol su ms = Some out ->
  Forall (fun e => has_visible (out_text e) = true
                   /\ exists w, In w words /\ out_x0 e = get_x0 w) out.
Proof.
  intro H. apply page_out_entries in H.
  eapply Forall_impl; [|exact H]. cbv beta.
  intros e (c & r & Hc & Er & -> & T). unfold out_text, out_x0. cbn [fst snd].
  split; [rewrite <- truthy_strip; exact T|].
  destruct (line_x0_word c su ms r Er) as (w & Hw & Ex).
  exists w. split; [|exact Ex].
  apply (Permutation_in _ (sorted_perm tuple_ltb (fun w => (get_top w, get_x0 w)) words)).
  rewrite <- (group_concat words tol). apply in_concat. exists c. split; assumption.
Qed.

(** X21.  When no word of the input has a negative x0, every text that
    [make_side_by_side] draws on a page starts in the right half of the
    page, at or right of the width of the source page. *)
Theorem side_by_side_text_in_right_half (src : list (Q * Q))
  (pdf : list (list WordBox)) (line_tol su : Q) (ms : Z) :
  Forall (Forall (fun w => 0 <= get_x0 w)) pdf ->
  exists out,
    make_side_by_side src pdf line_tol su ms = Some out
    /\ forall i w h,
         nth_error src i = Some (w, h) ->
         exists pg, nth_error out i = Some pg
                    /\ Forall (text_right_of w) (page_ops pg).
Proof.
  intro Hpos. destruct (side_by_side_page src pdf line_tol su ms) as (out & E & _ & Hpg).
  exists out. split; [exact E|]. intros i w h Hi.
  destruct (Hpg i w h Hi) as (texts & lines & En & Hd & Hl).
  eexists. split; [exact En|]. cbn [page_ops]. constructor; [exact I|].
  assert (Hx : Forall (fun e => 0 <= out_x0 e) lines).
  { destruct (nth_error pdf i) as [words|] eqn:Ew; [|subst lines; constructor].
    apply nth_error_In in Ew. rewrite Forall_forall in Hpos. specialize (Hpos _ Ew).
    eapply Forall_impl; [|exact (page_lines_entries _ _ _ _ _ Hl)].
    intros e (_ & v & Hv & ->). rewrite Forall_forall in Hpos. apply Hpos, Hv. }
  clear - Hd Hx. induction Hd as [|op e texts lines Hop _ IH]; constructor.
  - inversion Hx as [|? ? He _]; subst. red in Hop. rewrite Hop. cbn. lra.
  - apply IH. inversion Hx; assumption.
Qed.

Lemma side_by_side_text_in_right_half_witness :
  exists out,
    make_side_by_side [(612, 792)] [[hello; world]] 2 3 1 = Some out
    /\ forall i w h,
         nth_error [(612, 792)] i = Some (w, h) ->
         exists pg, nth_error out i = Some pg
                    /\ Forall (text_right_of w) (page_ops pg).
Proof.
  apply (side_by_side_text_in_right_half [(612, 792)] [[hello; world]] 2 3 1).
  repeat constructor; discriminate.
Defined.

Lemma overlay_page (doc : list (Q * Q)) (pdf : list (list WordBox))
  (tol su : Q) (ms : Z) :
  exists out,
    make_overlay_white doc pdf tol su ms = Some out
    /\ forall i w h,
         nth_error doc i = Some (w, h) ->
         exists texts lines,
           nth_error out i = Some (mkPage w h texts)
           /\ Forall2 draws_white texts lines
           /\ match nth_error pdf i with
              | Some words => page_lines words tol su ms = Some lines
              | None => lines = []
              end.
Proof.
  destruct (extract_total pdf tol su ms) as (lpp & E & Hall).
  unfold make_overlay_white. rewrite E. cbn [bind]. eexists. split; [reflexivity|].
  intros i w h Hi.
  destruct (overlay_white_pages_nth doc lpp 0 i w h Hi) as (texts & En & Hd).
  exists texts, (lines_of_page lpp i). split; [exact En|]. split; [exact Hd|].
  apply (lines_of_page_spec pdf lpp tol su ms Hall).
Qed.

Lemma lines_visible (pdf : list (list WordBox)) (tol su : Q) (ms : Z) (i : nat) lines :
  match nth_error pdf i with
  | Some words => page_lines words tol su ms = Some lines
  | None => lines = []
  end ->
  Forall (fun e => has_visible (out_text e) = true) lines.
Proof.
  destruct (nth_error pdf i) as [words|]; intro H; [|subst; constructor].
  eapply Forall_impl; [|exact (page_lines_entries _ _ _ _ _ H)].
  cbv beta. tauto.
Qed.

(** X22.  Neither renderer ever draws a blank text: every text drawn on a
    page of the output of [make_side_by_side] or of [make_overlay_white] has
    a character that is not white space. *)
Theorem rendered_text_never_blank (doc : list (Q * Q)) (pdf : list (list WordBox))
  (line_tol su : Q) (ms : Z) :
  (exists out,
      make_side_by_side doc pdf line_tol su ms = Some out
      /\ Forall (fun pg => Forall text_visible (page_ops pg)) out)
  /\ (exists out,
         make_overlay_white doc pdf line_tol su ms = Some out
         /\ Forall (fun pg => Forall text_visible (page_ops pg)) out).
Proof.
  split.
  - destruct (side_by_side_page doc pdf line_tol su ms) as (out & E & Hlen & Hpg).
    exists out. split; [exact E|]. apply Forall_forall. intros pg Hin.
    apply In_nth_error in Hin. destruct Hin as [i Hi].
    assert (Hlt : (i < List.length doc)%nat).
    { rewrite <- Hlen. apply nth_error_Some. congruence. }
    destruct (nth_error doc i) as [[w h]|] eqn:Ed;
      [|apply nth_error_None in Ed; lia].
    destruct (Hpg i w h Ed) as (texts & lines & En & Hd & Hl).
    rewrite En in Hi. injection Hi as <-. cbn [page_ops].
    constructor; [exact I|].
    pose proof (lines_visible pdf line_tol su ms i lines Hl) as Hv.
    clear - Hd Hv. induction Hd as [|op e texts lines Hop _ IH]; constructor.
    + inversion Hv; subst. red in Hop. rewrite Hop. assumption.
    + apply IH. inversion Hv; assumption.
  - destruct (overlay_page doc pdf line_tol su ms) as (out & E & Hpg).
    exists out. split; [exact E|]. apply Forall_forall. intros pg Hin.
    apply In_nth_error in Hin. destruct Hin as [i Hi].
    assert (Hlen : List.length out = List.length doc).
    { clear - E. unfold make_overlay_white in E.
      destruct (extract_lines_with_positions pdf line_tol su ms) as [lpp|];
        [|discriminate].
      injection E as <-. generalize 0%nat.
      induction doc as [|[w h] doc IH]; intro k; cbn [overlay_white_pages List.length];
        [reflexivity | rewrite IH; reflexivity]. }
    assert (Hlt : (i < List.length doc)%nat).
    { rewrite <- Hlen. apply nth_error_Some. congruence. }
    destruct (nth_error doc i) as [[w h]|] eqn:Ed;
      [|apply nth_error_None in Ed; lia].
    destruct (Hpg i w h Ed) as (texts & lines & En & Hd & Hl).
    rewrite En in Hi. injection Hi as <-. cbn [page_ops].
    pose proof (lines_visible pdf line_tol su ms i lines Hl) as Hv.
    clear - Hd Hv. induction Hd as [|op e texts lines Hop _ IH]; constructor.
    + inversion Hv; subst. red in Hop. rewrite Hop. assumption.
    + apply IH. inversion Hv; assumption.
Qed.

Lemma pages_correspond (doc : list (Q * Q)) lpp :
  forall k,
    Forall2 (fun pa pb =>
               page_width pa = 2 * page_width pb
               /\ page_height pa = page_height pb
               /\ exists shown texts,
                    page_ops pa = shown :: texts
                    /\ Forall2 (same_text_shifted (page_width pb)) texts (page_ops pb))
            (side_by_side_pages k doc lpp) (overlay_white_pages k doc lpp).
Proof.
  induction doc as [|[w h] doc IH]; intro k;
    cbn [side_by_side_pages overlay_white_pages]; constructor; [|apply IH].
  cbn [page_width page_height page_ops]. split; [reflexivity|]. split; [reflexivity|].
  eexists _, _. split; [reflexivity|].
  induction (lines_of_page lpp k) as [|[[[t x] y] f] l IHl]; cbn [map];
    constructor; [|exact IHl].
  exists x, (y + f * (85 # 100)), t, f. split; reflexivity.
Qed.

(** X23.  On the same input the two renderers draw the same texts: page by
    page, the side-by-side page is twice as wide as the overlay page and as
    high, and after showing the source page it draws, in the same order,
    what the overlay draws, each text with the same size at the same height
    on the page, black instead of white and one page width further to the
    right. *)
Theorem overlay_matches_side_by_side (doc : list (Q * Q)) (pdf : list (list WordBox))
  (line_tol su : Q) (ms : Z) :
  exists a b,
    make_side_by_side doc pdf line_tol su ms = Some a
    /\ make_overlay_white doc pdf line_tol su ms = Some b
    /\ Forall2 (fun pa pb =>
                  page_width pa = 2 * page_width pb
                  /\ page_height pa = page_height pb
                  /\ exists shown texts,
                       page_ops pa = shown :: texts
                       /\ Forall2 (same_text_shifted (page_width pb)) texts (page_ops pb))
               a b.
Proof.
  destruct (extract_total pdf line_tol su ms) as (lpp & E & _).
  unfold make_side_by_side, make_overlay_white. rewrite E. cbn [bind].
  eexists _, _. split; [reflexivity|]. split; [reflexivity|]. apply pages_correspond.
Qed.

(** ** The default output path *)

Lemma string_app_inv_l (a b c : string) : (a ++ b = a ++ c)%string -> b = c.
Proof.
  induction a as [|x a IH]; simpl; intro H; [exact H|].
  injection H as H. apply IH, H.
Qed.

(** X24.  When the input exists and no output path is given, [main] calls
    the renderer with the output path made of the input path without its
    extension and of the suffix of the mode; that path is never the input
    path, so the input is not overwritten.  ([os.path.splitext] splits a
    path into two parts of which the second is empty or starts with a
    period.) *)
Theorem default_output_not_input (path_exists : string -> bool)
  (splitext : string -> string * string) (args : Args) (base ext : string) :
  splitext (arg_input_pdf args) = (base, ext) ->
  arg_input_pdf args = (base ++ ext)%string ->
  (ext = EmptyString \/ exists t, ext = String "." t) ->
  path_exists (arg_input_pdf args) = true ->
  arg_output args = None ->
  exists out,
    outcome_output (main path_exists splitext args) = Some out
    /\ out = (base ++ match arg_mode args with
                      | side_by_side => "_side_by_side.pdf"
                      | overlay_white => "_overlay_white.pdf"
                      end)%string
    /\ out <> arg_input_pdf args.
Proof.
  intros Hs Hin Hext Hex Hout. unfold main. rewrite Hex, Hout, Hs. cbn [negb].
  exists (base ++ match arg_mode args with
                  | side_by_side => "_side_by_side.pdf"
                  | overlay_white => "_overlay_white.pdf"
                  end)%string.
  split; [destruct (arg_mode args); reflexivity|].
  split; [reflexivity|]. rewrite Hin. intro H. apply string_app_inv_l in H.
  destruct Hext as [->|[t ->]]; destruct (arg_mode args); discriminate H.
Qed.

Lemma default_output_not_input_witness :
  exists out,
    outcome_output
      (main (fun _ => true) (fun _ => ("in"%string, ".pdf"%string))
            (mkArgs "in.pdf" None overlay_white 2 3 1)) = Some out
    /\ out = "in_overlay_white.pdf"%string
    /\ out <> "in.pdf"%string.
Proof.
  apply (default_output_not_input (fun _ => true)
           (fun _ => ("in"%string, ".pdf"%string))
           (mkArgs "in.pdf" None overlay_white 2 3 1) "in" ".pdf").
  - reflexivity.
  - reflexivity.
  - right. exists "pdf"%string. reflexivity.
  - reflexivity.
  - reflexivity.
Defined.

(** ** Words that do not overlap *)

Lemma Qltb_comp (a a' b b' : Q) : a == a' -> b == b' -> Qltb a b = Qltb a' b'.
Proof.
  intros Ha Hb. destruct (Qltb a b) eqn:E; destruct (Qltb a' b') eqn:F;
    try reflexivity; exfalso.
  - apply Qltb_lt in E. apply Qltb_ge in F. lra.
  - apply Qltb_ge in E. apply Qltb_lt in F. lra.
Qed.

Lemma py_round_comp (p q : Q) : p == q -> py_round p = py_round q.
Proof.
  intro H. unfold py_round. rewrite (Qfloor_comp _ _ H).
  assert (C : (p - inject_Z (Qfloor q) ?= 1 # 2) = (q - inject_Z (Qfloor q) ?= 1 # 2)).
  { rewrite H. reflexivity. }
  rewrite C. reflexivity.
Qed.

(** The separator depends on the value of the gap only. *)
Lemma separator_comp (su : Q) (ms : Z) (g g' : Q) :
  g == g' -> separator su ms g = separator su ms g'.
Proof.
  intro H. unfold separator.
  rewrite (Qltb_comp 0 0 g g' (Qeq_refl 0) H).
  rewrite (Qltb_comp _ _ g g' (Qeq_refl (- su * (3 # 10))) H).
  assert (R : py_round (g / py_max (1 # 2) su) = py_round (g' / py_max (1 # 2) su)).
  { apply py_round_comp. rewrite H. reflexivity. }
  rewrite R. reflexivity.
Qed.

Lemma text_from_pairwise (su : Q) (ms : Z) (ws : list WordBox) :
  forall prev e,
    e == get_x1 prev ->
    Forall (fun w => get_x0 w <= get_x1 w) ws ->
    Sorted (fun a b => get_x1 a <= get_x0 b) (prev :: ws) ->
    text_from su ms e ws = text_pairwise su ms prev ws.
Proof.
  induction ws as [|w ws IH]; intros prev e He Hbox Hs;
    cbn [text_from text_pairwise]; [reflexivity|].
  inversion Hbox as [|? ? Hw Hbox']; subst.
  inversion Hs as [|? ? Hs' Hd]; subst. inversion Hd as [|? ? Hpw]; subst.
  rewrite (separator_comp su ms (get_x0 w - e) (get_x0 w - get_x1 prev))
    by (rewrite He; reflexivity).
  rewrite (IH w (py_max e (get_x1 w))); [reflexivity | | exact Hbox' | exact Hs'].
  unfold py_max. destruct (Qltb e (get_x1 w)) eqn:E; [reflexivity|].
  apply Qltb_ge in E. lra.
Qed.

(** X25.  On a line whose words have [x0 <= x1] and do not overlap (each
    word starts at or after the end of the word before it), the separator
    before a word is set by its distance to the word just before it: the
    running right edge is the right edge of the preceding word. *)
Theorem nonoverlapping_words_pairwise (ws : list WordBox) (su : Q) (ms : Z) :
  ws <> [] ->
  Forall (fun w => get_x0 w <= get_x1 w) ws ->
  Sorted (fun a b => get_x1 a <= get_x0 b) ws ->
  exists r,
    build_line_text ws su ms = Some r
    /\ line_text r
       = (get_text (hd empty_word ws)
          ++ text_pairwise su ms (hd empty_word ws) (tl ws))%string.
Proof.
  intros Hne Hbox Hs. destruct ws as [|w0 rest]; [contradiction|].
  assert (Hx : Sorted (fun a b => get_x0 a <= get_x0 b) (w0 :: rest)).
  { clear Hne. induction Hs as [|w l Hs' IH Hd]; constructor.
    - apply IH. inversion Hbox; assumption.
    - destruct Hd as [|v l Hv]; constructor.
      inversion Hbox as [|? ? Hw _]; subst. lra. }
  eexists. split.
  - apply (build_line_text_sorted (w0 :: rest) su ms w0 rest).
    apply sorted_by_x0, Hx.
  - cbn [line_text hd tl]. f_equal.
    apply text_from_pairwise; [reflexivity | inversion Hbox; assumption | exact Hs].
Qed.

Lemma nonoverlapping_words_pairwise_witness :
  exists r,
    build_line_text [hello; world] 3 1 = Some r
    /\ line_text r
       = (get_text (hd empty_word [hello; world])
          ++ text_pairwise 3 1 (hd empty_word [hello; world]) (tl [hello; world]))%string.
Proof.
  apply (nonoverlapping_words_pairwise [hello; world] 3 1).
  - discriminate.
  - repeat constructor; discriminate.
  - repeat constructor. discriminate.
Defined.

(** * Properties of the code in binary64 *)

(** ** The order of the floats *)

Lemma SFleb_trans (x y z : spec_float) :
  SFleb x y = true -> SFleb y z = true -> SFleb x z = true.
Proof.
  unfold SFleb, SFcompare.
  destruct x as [sx|sx| |sx mx ex], y as [sy|sy| |sy my ey], z as [sz|sz| |sz mz ez];
    try destruct sx; try destruct sy; try destruct sz; cbn;
    try reflexivity; try discriminate;
    change (Pcompare ?a ?b Eq) with (Pos.compare a b);
    destruct (Z.compare_spec ex ey), (Z.compare_spec ey ez), (Z.compare_spec ex ez);
    try lia; subst; try reflexivity; try discriminate;
    destruct (Pos.compare_spec mx my), (Pos.compare_spec my mz), (Pos.compare_spec mx mz);
    cbn; try reflexivity; try discriminate; lia.
Qed.

Lemma SFltb_leb (x y : spec_float) : SFltb x y = true -> SFleb x y = true.
Proof.
  unfold SFltb, SFleb. destruct (SFcompare x y) as [[| |]|]; congruence.
Qed.

Lemma SFleb_total (x y : spec_float) :
  SFeqb x x = true -> SFeqb y y = true -> SFltb x y = false -> SFleb y x = true.
Proof.
  unfold SFeqb, SFltb, SFleb, SFcompare.
  destruct x as [sx|sx| |sx mx ex], y as [sy|sy| |sy my ey];
    try destruct sx; try destruct sy; cbn;
    try reflexivity; try discriminate; intros _ _;
    change (Pcompare ?a ?b Eq) with (Pos.compare a b);
    rewrite (Z.compare_antisym ex ey), (Pos.compare_antisym mx my);
    destruct (Z.compare ex ey), (Pos.compare mx my); cbn;
    try reflexivity; try discriminate.
Qed.

Lemma SFleb_refl (x : spec_float) : SFeqb x x = true -> SFleb x x = true.
Proof.
  unfold SFeqb, SFleb. destruct (SFcompare x x) as [[| |]|]; congruence.
Qed.

Lemma SFltb_numbers (x y : spec_float) :
  SFltb x y = true -> SFeqb x x = true /\ SFeqb y y = true.
Proof.
  unfold SFltb, SFeqb, SFcompare.
  destruct x as [sx|sx| |sx mx ex], y as [sy|sy| |sy my ey];
    try destruct sx; try destruct sy; cbn; try discriminate; intros _;
    change (Pcompare ?a ?b Eq) with (Pos.compare a b);
    rewrite ?Z.compare_refl, ?Pos.compare_refl; cbn; split; reflexivity.
Qed.

Lemma SFleb_not_ltb (x y : spec_float) : SFleb x y = true -> SFltb y x = false.
Proof.
  unfold SFltb, SFleb, SFcompare.
  destruct x as [sx|sx| |sx mx ex], y as [sy|sy| |sy my ey];
    try destruct sx; try destruct sy; cbn;
    try reflexivity; try discriminate;
    change (Pcompare ?a ?b Eq) with (Pos.compare a b);
    rewrite (Z.compare_antisym ex ey), (Pos.compare_antisym mx my);
    destruct (Z.compare ex ey), (Pos.compare mx my); cbn;
    try reflexivity; try discriminate.
Qed.

(** [<=] on the floats is transitive. *)
Lemma float_leb_trans (a b c : float) :
  (a <=? b)%float = true -> (b <=? c)%float = true -> (a <=? c)%float = true.
Proof. rewrite !leb_spec. apply SFleb_trans. Qed.

Lemma float_ltb_leb (a b : float) : (a <? b)%float = true -> (a <=? b)%float = true.
Proof. rewrite ltb_spec, leb_spec. apply SFltb_leb. Qed.

(** Two floats that are numbers compare one way or the other. *)
Lemma float_leb_total (a b : float) :
  (a =? a)%float = true -> (b =? b)%float = true ->
  (a <? b)%float = false -> (b <=? a)%float = true.
Proof. rewrite !eqb_spec, ltb_spec, leb_spec. apply SFleb_total. Qed.

Lemma float_leb_refl (a : float) : (a =? a)%float = true -> (a <=? a)%float = true.
Proof. rewrite eqb_spec, leb_spec. apply SFleb_refl. Qed.

(** What compares below something is a number, and so is that. *)
Lemma float_ltb_numbers (a b : float) :
  (a <? b)%float = true -> (a =? a)%float = true /\ (b =? b)%float = true.
Proof. rewrite ltb_spec, !eqb_spec. apply SFltb_numbers. Qed.

Lemma float_leb_not_ltb (a b : float) :
  (a <=? b)%float = true -> (b <? a)%float = false.
Proof. rewrite ltb_spec, leb_spec. apply SFleb_not_ltb. Qed.

(** ** Clustering as a recursion over the sorted words, in binary64 *)

Lemma b64_fold_cluster_step (tol : float) (ws : list B64.WordBox) :
  forall lines current ct, current <> [] ->
    B64.close_clusters
      (fold_left (B64.cluster_step tol) ws (lines, current, Some ct))
    = lines ++ B64.clusters_from tol current ct ws.
Proof.
  induction ws as [|w ws IH]; intros lines current ct Hne.
  - simpl. destruct current; [contradiction | reflexivity].
  - change (fold_left (B64.cluster_step tol) (w :: ws) (lines, current, Some ct))
      with (fold_left (B64.cluster_step tol) ws
              (B64.cluster_step tol (lines, current, Some ct) w)).
    assert (Hstep : B64.cluster_step tol (lines, current, Some ct) w =
                    if (abs (B64.get_top w - ct) <=? tol)%float
                    then (lines, current ++ [w],
                          Some (B64.next_top ct (List.length current) (B64.get_top w)))
                    else (lines ++ [current], [w], Some (B64.get_top w))).
    { unfold B64.cluster_step, B64.next_top.
      rewrite length_app, Nat.add_1_r. reflexivity. }
    rewrite Hstep. cbn [B64.clusters_from].
    destruct (abs (B64.get_top w - ct) <=? tol)%float.
    + apply IH. destruct current; discriminate.
    + rewrite IH by discriminate. rewrite <- app_assoc. reflexivity.
Qed.

Lemma b64_group_eq (words : list B64.WordBox) (tol : float) :
  B64.group_words_into_lines words tol =
  match sorted B64.tuple_ltb (fun w => (B64.get_top w, B64.get_x0 w)) words with
  | [] => []
  | w :: rest => B64.clusters_from tol [w] (B64.get_top w) rest
  end.
Proof.
  unfold B64.group_words_into_lines. destruct words as [|w0 words]; [reflexivity|].
  destruct (sorted B64.tuple_ltb _ (w0 :: words)) as [|w rest] eqn:E.
  - apply sorted_nil_inv in E. discriminate.
  - cbn [fold_left B64.cluster_step].
    apply (b64_fold_cluster_step tol rest [] [w] (B64.get_top w)). discriminate.
Qed.

Lemma b64_clusters_from_head (tol : float) (ws : list B64.WordBox) :
  forall current ct,
    exists ext rest, B64.clusters_from tol current ct ws = (current ++ ext) :: rest.
Proof.
  induction ws as [|w ws IH]; intros current ct; cbn [B64.clusters_from].
  - exists [], []. rewrite app_nil_r. reflexivity.
  - destruct (_ <=? _)%float.
    + destruct (IH (current ++ [w])
                   (B64.next_top ct (List.length current) (B64.get_top w)))
        as (ext & rest & E).
      exists (w :: ext), rest. rewrite E, <- app_assoc. reflexivity.
    + exists [], (B64.clusters_from tol [w] (B64.get_top w) ws).
      rewrite app_nil_r. reflexivity.
Qed.



(** ** A larger tolerance *)






(** ** Line synthesis as a recursion over the sorted words, in binary64 *)

#[local] Set Warnings "-inexact-float".

Lemma b64_subscript_ok {A : Type} (l : list A) (i : nat) :
  (i < List.length l)%nat -> exists a, B64.subscript l i = B64.Ok a.
Proof.
  intro H. unfold B64.subscript.
  destruct (nth_error l i) as [a|] eqn:E; [exists a; reflexivity|].
  apply nth_error_None in E. lia.
Qed.

Lemma b64_subscript_middle (l : list float) :
  l <> [] ->
  exists a, B64.subscript (sorted PrimFloat.ltb (fun x => x) l)
              (List.length (sorted PrimFloat.ltb (fun x => x) l) / 2) = B64.Ok a.
Proof.
  intro H. apply b64_subscript_ok, half_lt. rewrite sorted_length.
  destruct l; [contradiction | simpl; lia].
Qed.

Lemma b64_font_size_ok (lw : list B64.WordBox) :
  exists f,
    match B64.collect_sizes lw with
    | _ :: _ =>
        let sizes_sorted := sorted PrimFloat.ltb (fun x => x) (B64.collect_sizes lw) in
        B64.subscript sizes_sorted (List.length sizes_sorted / 2)
    | [] =>
        let hs := sorted PrimFloat.ltb (fun x => x) (map B64.bbox_height lw) in
        match hs with
        | _ :: _ => B64.subscript hs (List.length hs / 2)
        | [] => B64.Ok 10%float
        end
    end = B64.Ok f.
Proof.
  destruct (B64.collect_sizes lw) as [|s sizes] eqn:E; cbv zeta.
  - destruct (sorted PrimFloat.ltb (fun x => x) (map B64.bbox_height lw))
      as [|h hs] eqn:Eh.
    + eexists. reflexivity.
    + rewrite <- Eh. apply b64_subscript_middle.
      intro H. rewrite H in Eh. discriminate.
  - apply b64_subscript_middle. discriminate.
Qed.

(** The loop over the later words either raises what the first failing
    separator raises, or appends the text of [text_from]. *)
Lemma b64_for_each_text (su : float) (ms : Z) (ws : list B64.WordBox) :
  forall parts prev last,
    B64.rmap (fun st : B64.text_state => String.concat EmptyString (fst (fst st)))
      (B64.for_each (B64.text_step su ms) ws (parts, prev, last))
    = B64.rmap (fun t => (String.concat EmptyString parts ++ t)%string)
        (B64.text_from su ms prev ws).
Proof.
  induction ws as [|w ws IH]; intros parts prev last.
  - cbn. rewrite string_app_nil_r. reflexivity.
  - cbn [B64.for_each B64.text_from B64.text_step].
    destruct (B64.separator su ms (B64.get_x0 w - prev)) as [sep|e];
      [|reflexivity].
    cbn [B64.rbind].
    rewrite (IH (parts ++ [sep; B64.get_text w])
               (B64.py_max prev (B64.get_x1 w)) (B64.py_max last (B64.get_x1 w))).
    destruct (B64.text_from su ms (B64.py_max prev (B64.get_x1 w)) ws) as [t|e];
      [|reflexivity].
    unfold B64.rmap. cbn [B64.rbind].
    rewrite join_app, !join_cons. cbn [String.concat].
    rewrite !string_app_assoc. reflexivity.
Qed.

(** The text [build_line_text] makes of a non-empty cluster. *)
Lemma b64_build_line_text_sorted (ws : list B64.WordBox) (su : float) (ms : Z) w rest :
  sorted PrimFloat.ltb B64.get_x0 ws = w :: rest ->
  B64.rmap B64.line_text (B64.build_line_text ws su ms)
  = B64.rmap (fun t => (B64.get_text w ++ t)%string)
      (B64.text_from su ms (B64.get_x1 w) rest).
Proof.
  intro E. unfold B64.build_line_text. rewrite E.
  destruct (b64_font_size_ok (w :: rest)) as [f Hf].
  cbv zeta in Hf |- *. rewrite Hf. cbn [B64.rbind].
  destruct (b64_subscript_ok
              (sorted PrimFloat.ltb (fun x => x) (map B64.get_top (w :: rest)))
              (List.length (w :: rest) / 2)) as [t Ht].
  { rewrite sorted_length, length_map. apply half_lt. simpl. lia. }
  rewrite Ht. cbn [B64.rbind B64.subscript nth_error tl].
  pose proof (b64_for_each_text su ms rest [B64.get_text w]
                (B64.get_x1 w) (B64.get_x1 w)) as H.
  destruct (B64.for_each (B64.text_step su ms) rest
              ([B64.get_text w], B64.get_x1 w, B64.get_x1 w)) as [[[parts p] l]|e].
  - cbn [B64.rbind B64.rmap B64.line_text]. unfold B64.rmap in H.
    cbn [B64.rbind fst] in H. rewrite H.
    destruct (B64.text_from su ms (B64.get_x1 w) rest); [|reflexivity].
    cbn [B64.rbind String.concat]. reflexivity.
  - cbn [B64.rbind B64.rmap]. unfold B64.rmap in H. cbn [B64.rbind] in H.
    rewrite H. destruct (B64.text_from su ms (B64.get_x1 w) rest); reflexivity.
Qed.

(** A list in ascending order of [x0] is left as it is by the sort. *)
Lemma b64_sorted_by_x0 (ws : list B64.WordBox) :
  Sorted (fun a b => (B64.get_x0 a <=? B64.get_x0 b)%float = true) ws ->
  sorted PrimFloat.ltb B64.get_x0 ws = ws.
Proof.
  intro H. apply sorted_id.
  induction H as [|w l Hs IH Hd]; constructor; [exact IH|].
  destruct Hd as [|v l Hv]; constructor.
  unfold key_le. apply float_leb_not_ltb. exact Hv.
Qed.

(** ** The separator, case by case *)

Lemma b64_separator_spec (su : float) (ms : Z) (gap : float) :
  B64.separator su ms gap
  = B64.rbind (B64.spec_spaces su ms gap) B64.repeat_space.
Proof.
  unfold B64.separator, B64.spec_spaces.
  destruct (0 <? gap)%float eqn:E.
  - destruct (B64.py_round (gap / B64.py_max 0.5 su)); reflexivity.
  - destruct (- su * 0.3 <? gap)%float eqn:F.
    + assert (G : (gap <=? 0)%float = true).
      { apply float_leb_total; [reflexivity | | exact E].
        apply (float_ltb_numbers _ _ F). }
      rewrite G. reflexivity.
    + rewrite andb_false_r. reflexivity.
Qed.

Lemma b64_spec_spaces_cases (su : float) (ms : Z) (gap : float) :
  ((0 <? gap)%float = true ->
   B64.spec_spaces su ms gap
   = B64.rbind (B64.py_round (gap / B64.py_max 0.5 su))
               (fun r => B64.Ok (Z.max ms r))
   /\ forall n, B64.spec_spaces su ms gap = B64.Ok n -> (ms <= n)%Z)
  /\ ((gap <=? 0)%float = true -> (- su * 0.3 <? gap)%float = true ->
      B64.spec_spaces su ms gap = B64.Ok 1%Z)
  /\ ((0 <? gap)%float = false ->
      ((gap <=? 0) && (- su * 0.3 <? gap))%float = false ->
      B64.spec_spaces su ms gap = B64.Ok 0%Z).
Proof.
  unfold B64.spec_spaces. split; [|split].
  - intro E. rewrite E. split; [reflexivity|].
    intro n. destruct (B64.py_round (gap / B64.py_max 0.5 su)) as [r|e];
      cbn [B64.rbind]; [|discriminate].
    intro H. injection H as <-. lia.
  - intros G F. rewrite (float_leb_not_ltb _ _ G), G, F. reflexivity.
  - intros E H. rewrite E, H. reflexivity.
Qed.

(** ** The running right edge *)

Lemma b64_py_max_cases (a b : float) :
  B64.py_max a b = a \/ B64.py_max a b = b.
Proof. unfold B64.py_max. destruct (a <? b)%float; [right | left]; reflexivity. Qed.

Lemma b64_py_max_number (a b : float) :
  (a =? a)%float = true -> (b =? b)%float = true ->
  (B64.py_max a b =? B64.py_max a b)%float = true.
Proof. intros Ha Hb. destruct (b64_py_max_cases a b) as [-> | ->]; assumption. Qed.

Lemma b64_py_max_ub (a b : float) :
  (a =? a)%float = true -> (b =? b)%float = true ->
  (a <=? B64.py_max a b)%float = true /\ (b <=? B64.py_max a b)%float = true.
Proof.
  intros Ha Hb. unfold B64.py_max. destruct (a <? b)%float eqn:E.
  - split; [apply float_ltb_leb, E | apply float_leb_refl, Hb].
  - split; [apply float_leb_refl, Ha | apply float_leb_total; assumption].
Qed.

Lemma b64_fold_py_max_in (l : list float) :
  forall a, In (fold_left B64.py_max l a) (a :: l).
Proof.
  induction l as [|x l IH]; intro a; cbn [fold_left].
  - left. reflexivity.
  - destruct (IH (B64.py_max a x)) as [H|H].
    + destruct (b64_py_max_cases a x) as [E|E]; rewrite E in *.
      * left. exact H.
      * right. left. exact H.
    + right. right. exact H.
Qed.

Lemma b64_fold_py_max_ub (l : list float) :
  forall a,
    Forall (fun x => (x =? x)%float = true) (a :: l) ->
    Forall (fun x => (x <=? fold_left B64.py_max l a)%float = true) (a :: l).
Proof.
  induction l as [|x l IH]; intros a H; cbn [fold_left].
  - inversion H as [|? ? Ha _]; subst.
    constructor; [apply float_leb_refl, Ha | constructor].
  - inversion H as [|? ? Ha Hl]; subst. inversion Hl as [|? ? Hx Hl']; subst.
    destruct (b64_py_max_ub a x Ha Hx) as [Ua Ux].
    assert (Hm : Forall (fun x => (x =? x)%float = true) (B64.py_max a x :: l)).
    { constructor; [apply b64_py_max_number; assumption | exact Hl']. }
    specialize (IH _ Hm). inversion IH as [|? ? Um Ul]; subst.
    constructor; [exact (float_leb_trans _ _ _ Ua Um)|].
    constructor; [exact (float_leb_trans _ _ _ Ux Um) | exact Ul].
Qed.

Lemma b64_running_right_edge_is_max (ws : list B64.WordBox) (i : nat) :
  (1 <= i)%nat -> ws <> [] ->
  In (B64.running_right_edge ws i) (map B64.get_x1 (firstn i ws))
  /\ (Forall (fun w => (B64.get_x1 w =? B64.get_x1 w)%float = true) ws ->
      Forall (fun w => (B64.get_x1 w <=? B64.running_right_edge ws i)%float = true)
             (firstn i ws)).
Proof.
  intros Hi Hne. destruct ws as [|w0 rest]; [contradiction|].
  destruct i as [|i]; [lia|].
  unfold B64.running_right_edge. cbn [hd tl firstn map].
  rewrite Nat.sub_succ, Nat.sub_0_r. split.
  - apply b64_fold_py_max_in.
  - intro Hnum.
    assert (Hn : Forall (fun x => (x =? x)%float = true)
                   (B64.get_x1 w0 :: map B64.get_x1 (firstn i rest))).
    { inversion Hnum as [|? ? H0 Hr]; subst. constructor; [exact H0|].
      apply Forall_map. rewrite <- (firstn_skipn i rest) in Hr.
      apply Forall_app in Hr. exact (proj1 Hr). }
    pose proof (b64_fold_py_max_ub _ _ Hn) as U.
    inversion U as [|? ? U0 Ur]; subst.
    constructor; [exact U0|]. apply Forall_map in Ur. exact Ur.
Qed.

(** ** The text in the words of the specification *)

Lemma b64_text_from_spec (su : float) (ms : Z) (w0 : B64.WordBox)
  (rest : list B64.WordBox) :
  forall pre,
    B64.text_from su ms (fold_left B64.py_max (map B64.get_x1 pre) (B64.get_x1 w0)) rest
    = B64.join_res
        (map (B64.spec_part su ms (w0 :: pre ++ rest))
             (seq (S (List.length pre)) (List.length rest))).
Proof.
  induction rest as [|w rest IH]; intro pre.
  - reflexivity.
  - cbn [B64.text_from List.length seq map B64.join_res].
    assert (Hpart : B64.spec_part su ms (w0 :: pre ++ w :: rest) (S (List.length pre))
                    = B64.rbind
                        (B64.separator su ms
                           (B64.get_x0 w
                            - fold_left B64.py_max (map B64.get_x1 pre) (B64.get_x1 w0)))
                        (fun s => B64.Ok (s ++ B64.get_text w)%string)).
    { unfold B64.spec_part, B64.running_right_edge.
      cbn [nth hd tl]. rewrite nth_middle, Nat.sub_succ, Nat.sub_0_r.
      replace (List.length pre) with (List.length pre + 0)%nat at 1 by lia.
      rewrite firstn_app_2. cbn [firstn]. rewrite app_nil_r.
      rewrite b64_separator_spec.
      destruct (B64.spec_spaces su ms _) as [n|e]; [|reflexivity].
      reflexivity. }
    rewrite Hpart.
    specialize (IH (pre ++ [w])).
    rewrite map_app, fold_left_app in IH. cbn [map fold_left] in IH.
    rewrite <- app_assoc in IH. cbn [app] in IH.
    rewrite length_app, Nat.add_1_r in IH. rewrite <- IH.
    destruct (B64.separator su ms _) as [sep|e]; [|reflexivity].
    cbn [B64.rbind].
    destruct (B64.text_from su ms _ rest) as [t|e]; [|reflexivity].
    cbn [B64.rbind]. rewrite string_app_assoc. reflexivity.
Qed.

(** C1.  For a line of at least two words in ascending [x0] order, the text
    of [build_line_text] is the first word's text followed, for each later
    word, by its separator and its text, every operation being the code's
    own on binary64 floats.  The separator is a run of spaces whose number
    is set by [gap = x0 - runningRightEdge], the running right edge being
    the maximum [x1] of the words before it (one of them, and no less than
    any of them when they are all numbers): [max(minSpaces, round(gap /
    max(0.5, spaceUnitPts)))] when [gap > 0] (so at least [minSpaces]), one
    when [0 >= gap > - spaceUnitPts * 0.3], none otherwise.  Where [round]
    has no value (an infinite ratio) or the run would be longer than any
    string, [build_line_text] raises what that operation raises and no text
    is made. *)
Theorem separator_rule (ws : list B64.WordBox) (su : float) (ms : Z) :
  Sorted (fun a b => (B64.get_x0 a <=? B64.get_x0 b)%float = true) ws ->
  (2 <= List.length ws)%nat ->
  B64.rmap B64.line_text (B64.build_line_text ws su ms) = B64.spec_text su ms ws
  /\ (forall i, (1 <= i < List.length ws)%nat ->
        In (B64.running_right_edge ws i) (map B64.get_x1 (firstn i ws))
        /\ (Forall (fun w => (B64.get_x1 w =? B64.get_x1 w)%float = true) ws ->
            Forall (fun w => (B64.get_x1 w <=? B64.running_right_edge ws i)%float = true)
                   (firstn i ws)))
  /\ (forall gap,
        ((0 <? gap)%float = true ->
         B64.spec_spaces su ms gap
         = B64.rbind (B64.py_round (gap / B64.py_max 0.5 su))
                     (fun r => B64.Ok (Z.max ms r))
         /\ forall n, B64.spec_spaces su ms gap = B64.Ok n -> (ms <= n)%Z)
        /\ ((gap <=? 0)%float = true -> (- su * 0.3 <? gap)%float = true ->
            B64.spec_spaces su ms gap = B64.Ok 1%Z)
        /\ ((0 <? gap)%float = false ->
            ((gap <=? 0) && (- su * 0.3 <? gap))%float = false ->
            B64.spec_spaces su ms gap = B64.Ok 0%Z))
  /\ (forall n s, B64.repeat_space n = B64.Ok s ->
        s = spaces n /\ String.length s = Z.to_nat n).
Proof.
  intros Hs Hlen. split; [|split; [|split]].
  - destruct ws as [|w0 rest]; [simpl in Hlen; lia|].
    rewrite (b64_build_line_text_sorted (w0 :: rest) su ms w0 rest)
      by (apply b64_sorted_by_x0, Hs).
    unfold B64.spec_text. cbn [hd List.length].
    rewrite Nat.sub_succ, Nat.sub_0_r.
    pose proof (b64_text_from_spec su ms w0 rest []) as H.
    cbn [map fold_left app List.length] in H. rewrite <- H.
    destruct (B64.text_from su ms (B64.get_x1 w0) rest); reflexivity.
  - intros i Hi. apply b64_running_right_edge_is_max; [lia|].
    destruct ws; [simpl in Hlen; lia | discriminate].
  - intro gap. apply b64_spec_spaces_cases.
  - intros n s. unfold B64.repeat_space.
    destruct (B64.maxsize <? n)%Z; [discriminate|].
    intro H. injection H as <-. split; [reflexivity | apply length_spaces].
Qed.

Lemma separator_rule_witness :
  B64.rmap B64.line_text (B64.build_line_text [B64.word_a; B64.word_b] 3 1)
  = B64.spec_text 3 1 [B64.word_a; B64.word_b]
  /\ B64.spec_text 3 1 [B64.word_a; B64.word_b] = B64.Ok "A  B"%string.
Proof.
  split; [|vm_compute; reflexivity].
  apply (separator_rule [B64.word_a; B64.word_b] 3 1).
  - repeat constructor.
  - simpl. lia.
Defined.

(** ** Rounding to the nearest integer *)






(** ** No space at all when [min_spaces] is zero *)



(** ** What puts a word into a cluster, in binary64 *)

Lemma b64_reference_from_snoc (ws : list B64.WordBox) (w : B64.WordBox) :
  forall ct k,
    B64.reference_from ct k (ws ++ [w])
    = B64.next_top (B64.reference_from ct k ws) (k + List.length ws) (B64.get_top w).
Proof.
  induction ws as [|v ws IH]; intros ct k; cbn [app B64.reference_from List.length].
  - rewrite Nat.add_0_r. reflexivity.
  - rewrite IH. f_equal. lia.
Qed.

(** The reference top of a cluster that a word joins is the update of the
    reference top it had. *)
Lemma b64_reference_top_snoc (current : list B64.WordBox) (w : B64.WordBox) :
  current <> [] ->
  B64.reference_top (current ++ [w])
  = B64.next_top (B64.reference_top current) (List.length current) (B64.get_top w).
Proof.
  intro Hne. destruct current as [|v current]; [contradiction|].
  cbn [app B64.reference_top List.length].
  apply b64_reference_from_snoc.
Qed.

Lemma b64_clusters_from_joined (tol : float) (ws : list B64.WordBox) :
  forall current,
    current <> [] -> B64.joined_within tol current ->
    Forall (B64.joined_within tol)
           (B64.clusters_from tol current (B64.reference_top current) ws).
Proof.
  induction ws as [|w ws IH]; intros current Hne Hj; cbn [B64.clusters_from].
  - constructor; [exact Hj | constructor].
  - destruct (abs (B64.get_top w - B64.reference_top current) <=? tol)%float eqn:E.
    + rewrite <- (b64_reference_top_snoc current w Hne). apply IH.
      * destruct current; discriminate.
      * intros i Hi. rewrite length_app, Nat.add_1_r in Hi.
        destruct (Nat.eq_dec i (List.length current)) as [->|Hneq].
        -- rewrite nth_middle.
           replace (List.length current) with (List.length current + 0)%nat at 1 by lia.
           rewrite firstn_app_2. cbn [firstn]. rewrite app_nil_r. exact E.
        -- rewrite app_nth1 by lia. rewrite firstn_app.
           replace (i - List.length current)%nat with 0%nat by lia.
           cbn [firstn]. rewrite app_nil_r. apply Hj. lia.
    + constructor; [exact Hj|].
      apply (IH [w]); [discriminate|].
      intros i Hi. simpl in Hi. lia.
Qed.

(** X2.  In every cluster of [group_words_into_lines], each word after the
    first passed the test [abs(top - current_top) <= line_tol] against the
    reference top the loop had made of the words before it in that cluster
    alone, by its update [(current_top * (n - 1) + top) / n] from the first
    word's top on. *)
Theorem clusters_joined (words : list B64.WordBox) (line_tol : float) :
  Forall (B64.joined_within line_tol) (B64.group_words_into_lines words line_tol).
Proof.
  rewrite b64_group_eq.
  destruct (sorted B64.tuple_ltb _ words) as [|w rest]; [constructor|].
  apply (b64_clusters_from_joined line_tol rest [w]); [discriminate|].
  intros i Hi. simpl in Hi. lia.
Qed.

Lemma b64_clusters_from_separated (tol : float) (ws : list B64.WordBox) :
  forall current,
    current <> [] ->
    forall before c1 c2 after,
      B64.clusters_from tol current (B64.reference_top current) ws
      = before ++ c1 :: c2 :: after ->
      (abs (B64.get_top (hd B64.empty_word c2) - B64.reference_top c1) <=? tol)%float
      = false.
Proof.
  induction ws as [|w ws IH]; intros current Hne before c1 c2 after;
    cbn [B64.clusters_from].
  - intro H. apply (f_equal (@List.length _)) in H.
    rewrite length_app in H. simpl in H. lia.
  - destruct (abs (B64.get_top w - B64.reference_top current) <=? tol)%float eqn:E.
    + rewrite <- (b64_reference_top_snoc current w Hne).
      apply IH. destruct current; discriminate.
    + intro H. destruct before as [|b before]; cbn [app] in H.
      * injection H as <- H.
        destruct (b64_clusters_from_head tol ws [w] (B64.get_top w))
          as (ext & rest & Eh).
        rewrite Eh in H. injection H as <- _. cbn [app hd]. exact E.
      * injection H as _ H.
        exact (IH [w] ltac:(discriminate) _ _ _ _ H).
Qed.

(** X3.  A cluster ends only where it must: the first word of each cluster
    after the first failed the test [abs(top - current_top) <= line_tol]
    against the reference top of the whole cluster before it. *)
Theorem clusters_separated (words : list B64.WordBox) (line_tol : float)
  (before : list (list B64.WordBox)) (c1 c2 : list B64.WordBox)
  (after : list (list B64.WordBox)) :
  B64.group_words_into_lines words line_tol = before ++ c1 :: c2 :: after ->
  (abs (B64.get_top (hd B64.empty_word c2) - B64.reference_top c1) <=? line_tol)%float
  = false.
Proof.
  rewrite b64_group_eq.
  destruct (sorted B64.tuple_ltb _ words) as [|w rest].
  - intro H. destruct before; discriminate.
  - apply (b64_clusters_from_separated line_tol rest [w]). discriminate.
Qed.

Lemma clusters_separated_witness :
  (abs (B64.get_top (hd B64.empty_word
                       (map B64.at_top [0x1.0000000000001p+0; 0x1.0000000000002p+0;
                                        0x1.0000000000003p+0; 0x1.0000000000004p+0]%float))
        - B64.reference_top [B64.at_top 0x1.fffffffffffffp-1%float]) <=? 0x1p-52)%float
  = false.
Proof.
  apply (clusters_separated B64.ulp_page 0x1p-52%float []
           [B64.at_top 0x1.fffffffffffffp-1%float]
           (map B64.at_top [0x1.0000000000001p+0; 0x1.0000000000002p+0;
                            0x1.0000000000003p+0; 0x1.0000000000004p+0]%float) []).
  vm_compute. reflexivity.
Defined.

(** ** Pages that make a cluster of every word *)




